(** * fix_chat.js: the SSE stream decoder and the delta accumulator

    A shallow embedding of [src/public/fix_chat.js]: the record demuxer
    [consumeSseEvents], the accumulator [processSseDataChunk] and the
    exchange driver [sendMessage], with the properties the specification
    states about them. *)

From Stdlib Require Import List NArith ZArith Bool Lia String Ascii DecimalString.
From stdpp Require Import base list.
Import ListNotations.

Set Warnings "-register-all".
Local Open Scope N_scope.
Local Open Scope list_scope.

(** ** JavaScript strings

    A JavaScript string is a sequence of UTF-16 code units; every string
    operation the source uses works on code units. *)

Definition jsstring := list N.

(** An ASCII literal as a JavaScript string. *)
Definition js (s : string) : jsstring :=
  List.map N_of_ascii (list_ascii_of_string s).

Definition LF : N := 10.
Definition CR : N := 13.

Definition jsstring_eqb (a b : jsstring) : bool :=
  bool_decide (a = b).

(** [s.startsWith(prefix)] *)
Fixpoint startsWith (s prefix : jsstring) : bool :=
  match prefix, s with
  | [], _ => true
  | _ :: _, [] => false
  | p :: prefix', c :: s' => (c =? p) && startsWith s' prefix'
  end.

(** [s.endsWith(suffix)] *)
Definition endsWith (s suffix : jsstring) : bool :=
  startsWith (rev s) (rev suffix).

(** [s.indexOf(needle)], [None] standing for [-1]. *)
Fixpoint indexOf (s needle : jsstring) : option nat :=
  if startsWith s needle then Some 0%nat
  else match s with
       | [] => None
       | _ :: s' => option_map S (indexOf s' needle)
       end.

(** [s.slice(a, b)] and [s.slice(a)] for non-negative indices. *)
Definition slice (s : jsstring) (a b : nat) : jsstring :=
  firstn (b - a) (skipn a s).

Definition slice_from (s : jsstring) (a : nat) : jsstring :=
  skipn a s.

(** [s.replace(/\r/g, "")] *)
Definition replace_CR (s : jsstring) : jsstring :=
  List.filter (fun c => negb (c =? CR)) s.

(** [s.split(sep)] for a separator of one code unit. *)
Fixpoint split (s : jsstring) (sep : N) : list jsstring :=
  match s with
  | [] => [[]]
  | c :: s' =>
      if c =? sep then [] :: split s' sep
      else match split s' sep with
           | [] => [[c]]
           | l :: ls => (c :: l) :: ls
           end
  end.

(** [lines.join(sep)] *)
Fixpoint join (l : list jsstring) (sep : jsstring) : jsstring :=
  match l with
  | [] => []
  | [x] => x
  | x :: rest => x ++ sep ++ join rest sep
  end.

(** ECMAScript WhiteSpace and LineTerminator code points, all of them in
    the Basic Multilingual Plane. *)
Definition isWhiteSpace (c : N) : bool :=
  (c =? 9) || (c =? 10) || (c =? 11) || (c =? 12) || (c =? 13) ||
  (c =? 32) || (c =? 160) || (c =? 5760) ||
  ((8192 <=? c) && (c <=? 8202)) ||
  (c =? 8232) || (c =? 8233) || (c =? 8239) || (c =? 8287) ||
  (c =? 12288) || (c =? 65279).

(** [s.trimStart()] *)
Fixpoint trimStart (s : jsstring) : jsstring :=
  match s with
  | [] => []
  | c :: s' => if isWhiteSpace c then trimStart s' else s
  end.

(** [s.trim()] *)
Definition trimEnd (s : jsstring) : jsstring :=
  rev (trimStart (rev s)).

Definition trim (s : jsstring) : jsstring :=
  trimEnd (trimStart s).

(** ** The demuxer: [consumeSseEvents] *)

Definition terminator : jsstring := [LF; LF].
Definition data_prefix : jsstring := Eval cbv in js "data:".

Record Parsed := { events : list jsstring; buffer : jsstring }.

(** The body of [for (const line of lines)]: one step of the loop that
    fills [dataLines]. *)
Definition push_data_line (dataLines : list jsstring) (line : jsstring)
  : list jsstring :=
  if startsWith line data_prefix
  then dataLines ++ [trimStart (slice_from line (length data_prefix))]
  else dataLines.

Definition collect_data_lines (lines : list jsstring) : list jsstring :=
  fold_left push_data_line lines [].

(** The [while] loop of [consumeSseEvents].  Every iteration removes at
    least the two code units of a terminator, so the length of the
    normalized buffer bounds the number of iterations; [fuel] counts them
    down (see [consume_loop_fuel]). *)
Fixpoint consume_loop (fuel : nat) (normalized : jsstring)
  (events : list jsstring) : Parsed :=
  match fuel with
  | O => {| events := events; buffer := normalized |}
  | S fuel' =>
      match indexOf normalized terminator with
      | None => {| events := events; buffer := normalized |}
      | Some eventEndIndex =>
          let rawEvent := slice normalized 0 eventEndIndex in
          let normalized' := slice_from normalized (eventEndIndex + 2) in
          let lines := split rawEvent LF in
          let dataLines := collect_data_lines lines in
          match dataLines with
          | [] => consume_loop fuel' normalized' events
          | _ :: _ =>
              consume_loop fuel' normalized'
                (events ++ [join dataLines [LF]])
          end
      end
  end.

Definition consumeSseEvents (buffer : jsstring) : Parsed :=
  let normalized := replace_CR buffer in
  consume_loop (length normalized) normalized [].

(** ** Values and exceptions of the runtime *)

(** A JSON number literal with its exact decimal value
    [(-1)^num_neg * num_mantissa * 10^num_exp10]. *)
Record NumericLiteral :=
  { num_neg : bool; num_mantissa : N; num_exp10 : Z }.

Inductive JsValue :=
| JUndefined
| JNull
| JBool (b : bool)
| JNumber (n : NumericLiteral)
| JString (s : jsstring)
| JArray (elems : list JsValue)
| JObject (members : list (jsstring * JsValue)).

(** What the [try] block of [processSseDataChunk] can throw. *)
Inductive Thrown :=
| SyntaxError   (* JSON.parse on a text that is not JSON *)
| TypeError.    (* a property read on null, an object without primitive value *)

Inductive completion (A : Type) :=
| Normal (a : A)
| Throw (e : Thrown).
Arguments Normal {A} a.
Arguments Throw {A} e.

#[global] Instance completion_bind : MBind completion :=
  fun A B (k : A -> completion B) (c : completion A) =>
    match c with
    | Normal a => k a
    | Throw e => Throw e
    end.

(** ** [JSON.parse]

    The JSON grammar of ECMA-404 as [JSON.parse] reads it: a lexer that
    steps through the code units, then a stack machine over the tokens.
    Both recurse on their input, so the parser is total. *)

Inductive token :=
| TLBrace | TRBrace | TLBracket | TRBracket | TColon | TComma
| TStr (s : jsstring)
| TNum (n : NumericLiteral)
| TTrue | TFalse | TNull.

Inductive numstate :=
| NMinus | NZero | NInt | NDot | NFrac | NExpMark | NExpSign | NExp.

Record numacc :=
  { a_neg : bool; a_mant : N; a_fraclen : Z; a_eneg : bool; a_exp : N }.

Definition numacc_start (neg : bool) (d : N) : numacc :=
  {| a_neg := neg; a_mant := d; a_fraclen := 0; a_eneg := false; a_exp := 0 |}.

Definition number_of (a : numacc) : NumericLiteral :=
  {| num_neg := a_neg a;
     num_mantissa := a_mant a;
     num_exp10 := ((if a_eneg a then - Z.of_N (a_exp a) else Z.of_N (a_exp a))
                   - a_fraclen a)%Z |}.

Inductive lexmode :=
| LStart
| LKeyword (rest : jsstring) (t : token)
| LString (acc : jsstring)
| LEscape (acc : jsstring)
| LHex (acc : jsstring) (k : nat) (v : N)
| LNumber (st : numstate) (a : numacc).

Definition digit_of (c : N) : option N :=
  if (48 <=? c) && (c <=? 57) then Some (c - 48) else None.

Definition hexdigit_of (c : N) : option N :=
  if (48 <=? c) && (c <=? 57) then Some (c - 48)
  else if (65 <=? c) && (c <=? 70) then Some (c - 55)
  else if (97 <=? c) && (c <=? 102) then Some (c - 87)
  else None.

Definition is_json_ws (c : N) : bool :=
  (c =? 9) || (c =? 10) || (c =? 13) || (c =? 32).

(** A code unit met between tokens. *)
Definition lex_start (c : N) : option (lexmode * list token) :=
  if is_json_ws c then Some (LStart, [])
  else if c =? 123 then Some (LStart, [TLBrace])
  else if c =? 125 then Some (LStart, [TRBrace])
  else if c =? 91 then Some (LStart, [TLBracket])
  else if c =? 93 then Some (LStart, [TRBracket])
  else if c =? 58 then Some (LStart, [TColon])
  else if c =? 44 then Some (LStart, [TComma])
  else if c =? 34 then Some (LString [], [])
  else if c =? 45 then Some (LNumber NMinus (numacc_start true 0), [])
  else if c =? 48 then Some (LNumber NZero (numacc_start false 0), [])
  else if c =? 116 then Some (LKeyword (js "rue") TTrue, [])
  else if c =? 102 then Some (LKeyword (js "alse") TFalse, [])
  else if c =? 110 then Some (LKeyword (js "ull") TNull, [])
  else match digit_of c with
       | Some d => Some (LNumber NInt (numacc_start false d), [])
       | None => None
       end.

(** The number literal ends before [c]. *)
Definition lex_number_end (a : numacc) (c : N)
  : option (lexmode * list token) :=
  match lex_start c with
  | Some (m, ts) => Some (m, TNum (number_of a) :: ts)
  | None => None
  end.

Definition is_exp_mark (c : N) : bool := (c =? 101) || (c =? 69).

Definition add_int_digit (a : numacc) (d : N) : numacc :=
  {| a_neg := a_neg a; a_mant := a_mant a * 10 + d;
     a_fraclen := a_fraclen a; a_eneg := a_eneg a; a_exp := a_exp a |}.

Definition add_frac_digit (a : numacc) (d : N) : numacc :=
  {| a_neg := a_neg a; a_mant := a_mant a * 10 + d;
     a_fraclen := (a_fraclen a + 1)%Z; a_eneg := a_eneg a; a_exp := a_exp a |}.

Definition add_exp_digit (a : numacc) (d : N) : numacc :=
  {| a_neg := a_neg a; a_mant := a_mant a;
     a_fraclen := a_fraclen a; a_eneg := a_eneg a; a_exp := a_exp a * 10 + d |}.

Definition set_exp_neg (a : numacc) : numacc :=
  {| a_neg := a_neg a; a_mant := a_mant a;
     a_fraclen := a_fraclen a; a_eneg := true; a_exp := a_exp a |}.

Definition lex_number (st : numstate) (a : numacc) (c : N)
  : option (lexmode * list token) :=
  match st with
  | NMinus =>
      match digit_of c with
      | Some d => if d =? 0 then Some (LNumber NZero a, [])
                  else Some (LNumber NInt (add_int_digit a d), [])
      | None => None
      end
  | NZero =>
      if c =? 46 then Some (LNumber NDot a, [])
      else if is_exp_mark c then Some (LNumber NExpMark a, [])
      else lex_number_end a c
  | NInt =>
      match digit_of c with
      | Some d => Some (LNumber NInt (add_int_digit a d), [])
      | None =>
          if c =? 46 then Some (LNumber NDot a, [])
          else if is_exp_mark c then Some (LNumber NExpMark a, [])
          else lex_number_end a c
      end
  | NDot =>
      match digit_of c with
      | Some d => Some (LNumber NFrac (add_frac_digit a d), [])
      | None => None
      end
  | NFrac =>
      match digit_of c with
      | Some d => Some (LNumber NFrac (add_frac_digit a d), [])
      | None =>
          if is_exp_mark c then Some (LNumber NExpMark a, [])
          else lex_number_end a c
      end
  | NExpMark =>
      match digit_of c with
      | Some d => Some (LNumber NExp (add_exp_digit a d), [])
      | None =>
          if c =? 43 then Some (LNumber NExpSign a, [])
          else if c =? 45 then Some (LNumber NExpSign (set_exp_neg a), [])
          else None
      end
  | NExpSign =>
      match digit_of c with
      | Some d => Some (LNumber NExp (add_exp_digit a d), [])
      | None => None
      end
  | NExp =>
      match digit_of c with
      | Some d => Some (LNumber NExp (add_exp_digit a d), [])
      | None => lex_number_end a c
      end
  end.

Definition lex_escape (acc : jsstring) (c : N) : option (lexmode * list token) :=
  if c =? 34 then Some (LString (34 :: acc), [])
  else if c =? 92 then Some (LString (92 :: acc), [])
  else if c =? 47 then Some (LString (47 :: acc), [])
  else if c =? 98 then Some (LString (8 :: acc), [])
  else if c =? 102 then Some (LString (12 :: acc), [])
  else if c =? 110 then Some (LString (10 :: acc), [])
  else if c =? 114 then Some (LString (13 :: acc), [])
  else if c =? 116 then Some (LString (9 :: acc), [])
  else if c =? 117 then Some (LHex acc 4 0, [])
  else None.

Definition lex_step (m : lexmode) (c : N) : option (lexmode * list token) :=
  match m with
  | LStart => lex_start c
  | LKeyword [] _ => None
  | LKeyword (r :: rest) t =>
      if c =? r
      then match rest with
           | [] => Some (LStart, [t])
           | _ :: _ => Some (LKeyword rest t, [])
           end
      else None
  | LString acc =>
      if c =? 34 then Some (LStart, [TStr (rev acc)])
      else if c =? 92 then Some (LEscape acc, [])
      else if c <? 32 then None
      else Some (LString (c :: acc), [])
  | LEscape acc => lex_escape acc c
  | LHex acc k v =>
      match hexdigit_of c with
      | Some d =>
          match k with
          | O | 1%nat => Some (LString ((v * 16 + d) :: acc), [])
          | S k' => Some (LHex acc k' (v * 16 + d), [])
          end
      | None => None
      end
  | LNumber st a => lex_number st a c
  end.

Definition lex_end (m : lexmode) : option (list token) :=
  match m with
  | LStart => Some []
  | LNumber (NZero | NInt | NFrac | NExp) a => Some [TNum (number_of a)]
  | _ => None
  end.

Fixpoint lex (m : lexmode) (s : jsstring) : option (list token) :=
  match s with
  | [] => lex_end m
  | c :: s' =>
      match lex_step m c with
      | Some (m', ts) =>
          match lex m' s' with
          | Some rest => Some (ts ++ rest)
          | None => None
          end
      | None => None
      end
  end.

(** A property is created or, when the key is there already, overwritten
    in place: of duplicate keys the last one wins. *)
Fixpoint set_member (ms : list (jsstring * JsValue)) (k : jsstring)
  (v : JsValue) : list (jsstring * JsValue) :=
  match ms with
  | [] => [(k, v)]
  | (k', v') :: ms' =>
      if jsstring_eqb k' k then (k', v) :: ms'
      else (k', v') :: set_member ms' k v
  end.

Inductive frame :=
| FArray (elems_rev : list JsValue)
| FObject (members : list (jsstring * JsValue)) (key : option jsstring).

Inductive pmode :=
| PValue          (* a value must follow *)
| PValueOrClose   (* just after [ *)
| PKeyOrClose     (* just after { *)
| PKey            (* after a comma in an object *)
| PColon          (* after a key *)
| PAfterValue     (* after a value in an array or an object *)
| PEnd (v : JsValue).

(** A value is complete: it goes into the innermost open container. *)
Definition close_value (v : JsValue) (stack : list frame)
  : option (pmode * list frame) :=
  match stack with
  | [] => Some (PEnd v, [])
  | FArray vs :: st => Some (PAfterValue, FArray (v :: vs) :: st)
  | FObject ms (Some k) :: st =>
      Some (PAfterValue, FObject (set_member ms k v) None :: st)
  | FObject _ None :: _ => None
  end.

Definition parse_value_token (t : token) (stack : list frame)
  : option (pmode * list frame) :=
  match t with
  | TLBrace => Some (PKeyOrClose, FObject [] None :: stack)
  | TLBracket => Some (PValueOrClose, FArray [] :: stack)
  | TStr s => close_value (JString s) stack
  | TNum n => close_value (JNumber n) stack
  | TTrue => close_value (JBool true) stack
  | TFalse => close_value (JBool false) stack
  | TNull => close_value JNull stack
  | TRBrace | TRBracket | TColon | TComma => None
  end.

Definition parse_key_token (t : token) (stack : list frame)
  : option (pmode * list frame) :=
  match t, stack with
  | TStr k, FObject ms None :: st => Some (PColon, FObject ms (Some k) :: st)
  | _, _ => None
  end.

Definition parse_step (m : pmode) (stack : list frame) (t : token)
  : option (pmode * list frame) :=
  match m with
  | PValue => parse_value_token t stack
  | PValueOrClose =>
      match t, stack with
      | TRBracket, FArray vs :: st => close_value (JArray (rev vs)) st
      | _, _ => parse_value_token t stack
      end
  | PKeyOrClose =>
      match t, stack with
      | TRBrace, FObject ms None :: st => close_value (JObject ms) st
      | _, _ => parse_key_token t stack
      end
  | PKey => parse_key_token t stack
  | PColon =>
      match t with
      | TColon => Some (PValue, stack)
      | _ => None
      end
  | PAfterValue =>
      match t, stack with
      | TComma, FArray _ :: _ => Some (PValue, stack)
      | TComma, FObject _ None :: _ => Some (PKey, stack)
      | TRBracket, FArray vs :: st => close_value (JArray (rev vs)) st
      | TRBrace, FObject ms None :: st => close_value (JObject ms) st
      | _, _ => None
      end
  | PEnd _ => None
  end.

Fixpoint parse_tokens (m : pmode) (stack : list frame) (ts : list token)
  : option JsValue :=
  match ts with
  | [] => match m with
          | PEnd v => Some v
          | _ => None
          end
  | t :: ts' =>
      match parse_step m stack t with
      | Some (m', stack') => parse_tokens m' stack' ts'
      | None => None
      end
  end.

Definition JSON_parse (text : jsstring) : completion JsValue :=
  match lex LStart text with
  | Some ts =>
      match parse_tokens PValue [] ts with
      | Some v => Normal v
      | None => Throw SyntaxError
      end
  | None => Throw SyntaxError
  end.

(** ** Property reads, truthiness and string conversion *)

(** The property keys the source reads.  None of them is a property of
    [Object.prototype], [Array.prototype], [String.prototype],
    [Number.prototype] or [Boolean.prototype], so a read finds an own
    property or [undefined]. *)
Inductive Key := K_response | K_choices | K_0 | K_delta | K_content.

Definition key_name (k : Key) : jsstring :=
  match k with
  | K_response => js "response"
  | K_choices => js "choices"
  | K_0 => js "0"
  | K_delta => js "delta"
  | K_content => js "content"
  end.

Fixpoint lookup_member (ms : list (jsstring * JsValue)) (k : jsstring)
  : option JsValue :=
  match ms with
  | [] => None
  | (k', v) :: ms' => if jsstring_eqb k' k then Some v else lookup_member ms' k
  end.

(** [v.key], [v[0]] *)
Definition Get (v : JsValue) (k : Key) : completion JsValue :=
  match v with
  | JUndefined | JNull => Throw TypeError
  | JBool _ | JNumber _ => Normal JUndefined
  | JString s =>
      match k, s with
      | K_0, c :: _ => Normal (JString [c])
      | _, _ => Normal JUndefined
      end
  | JArray elems =>
      match k, elems with
      | K_0, e :: _ => Normal e
      | _, _ => Normal JUndefined
      end
  | JObject ms =>
      match lookup_member ms (key_name k) with
      | Some x => Normal x
      | None => Normal JUndefined
      end
  end.

Definition is_nullish (v : JsValue) : bool :=
  match v with
  | JUndefined | JNull => true
  | _ => false
  end.

(** [v?.key], [v?.[0]] *)
Definition optional_get (v : JsValue) (k : Key) : completion JsValue :=
  if is_nullish v then Normal JUndefined else Get v k.

(** [jsonData.choices?.[0]?.delta?.content] *)
Definition choices_0_delta_content_optional (jsonData : JsValue)
  : completion JsValue :=
  choices ← Get jsonData K_choices;
  first ← optional_get choices K_0;
  delta ← optional_get first K_delta;
  optional_get delta K_content.

(** [jsonData.choices[0].delta.content] *)
Definition choices_0_delta_content (jsonData : JsValue)
  : completion JsValue :=
  choices ← Get jsonData K_choices;
  first ← Get choices K_0;
  delta ← Get first K_delta;
  Get delta K_content.

(** [typeof v === "string" && v.length > 0] *)
Definition is_nonempty_string (v : JsValue) : bool :=
  match v with
  | JString (_ :: _) => true
  | _ => false
  end.

(** The engine's Number type is binary64.  The source never computes with
    a number: it tests one for truthiness and appends one to a string.
    Both depend on how the engine rounds a literal and prints a double, and
    are taken from the engine. *)
Record Engine :=
  { Number_ToBoolean : NumericLiteral -> bool;
    Number_ToString : NumericLiteral -> jsstring }.

Definition ToBoolean (engine : Engine) (v : JsValue) : bool :=
  match v with
  | JUndefined | JNull => false
  | JBool b => b
  | JNumber n => Number_ToBoolean engine n
  | JString s => negb (jsstring_eqb s [])
  | JArray _ | JObject _ => true
  end.

Definition has_own (ms : list (jsstring * JsValue)) (k : jsstring) : bool :=
  existsb (fun m => jsstring_eqb (fst m) k) ms.

(** The string a value contributes to [text += v].  A parsed object has no
    callable property of its own: with an own [toString] no conversion is
    left and the runtime throws, without one [Object.prototype.toString]
    answers.  An array answers with [join]. *)
Fixpoint ToString (engine : Engine) (v : JsValue) : completion jsstring :=
  match v with
  | JUndefined => Normal (js "undefined")
  | JNull => Normal (js "null")
  | JBool true => Normal (js "true")
  | JBool false => Normal (js "false")
  | JNumber n => Normal (Number_ToString engine n)
  | JString s => Normal s
  | JArray elems =>
      (fix join_elems (l : list JsValue) : completion jsstring :=
         match l with
         | [] => Normal []
         | e :: rest =>
             s ← (if is_nullish e then Normal [] else ToString engine e);
             match rest with
             | [] => Normal s
             | _ :: _ => r ← join_elems rest; Normal (s ++ js "," ++ r)
             end
         end) elems
  | JObject ms =>
      if has_own ms (js "toString") then Throw TypeError
      else Normal (js "[object Object]")
  end.

(** ** The page: module state, the DOM nodes the script touches, and what
    it sends out.  Scroll position, textarea height and focus are layout
    and are left out. *)

Record ChatMessage := { role : jsstring; content : jsstring }.

(** A [div.message] together with the text of its [p]. *)
Record MessageElement := { className : jsstring; textContent : jsstring }.

(** An [Error] as [sendMessage] catches it. *)
Record ErrorObject := { error_name : jsstring; error_message : jsstring }.

Inductive LogEntry :=
| LogParseFailure (error : Thrown) (data : jsstring)
| LogError (error : ErrorObject).

Record Page :=
  { chatHistory : list ChatMessage;
    isProcessing : bool;
    userInput_value : jsstring;
    userInput_disabled : bool;
    sendButton_disabled : bool;
    typingIndicator_visible : bool;
    chatMessages : list MessageElement;
    console : list LogEntry;
    requests : list (list ChatMessage) }.

Definition set_chatHistory (h : list ChatMessage) (p : Page) : Page :=
  {| chatHistory := h; isProcessing := isProcessing p;
     userInput_value := userInput_value p;
     userInput_disabled := userInput_disabled p;
     sendButton_disabled := sendButton_disabled p;
     typingIndicator_visible := typingIndicator_visible p;
     chatMessages := chatMessages p; console := console p;
     requests := requests p |}.

Definition set_processing (b : bool) (p : Page) : Page :=
  {| chatHistory := chatHistory p; isProcessing := b;
     userInput_value := userInput_value p;
     userInput_disabled := b;
     sendButton_disabled := b;
     typingIndicator_visible := typingIndicator_visible p;
     chatMessages := chatMessages p; console := console p;
     requests := requests p |}.

Definition set_userInput_value (s : jsstring) (p : Page) : Page :=
  {| chatHistory := chatHistory p; isProcessing := isProcessing p;
     userInput_value := s;
     userInput_disabled := userInput_disabled p;
     sendButton_disabled := sendButton_disabled p;
     typingIndicator_visible := typingIndicator_visible p;
     chatMessages := chatMessages p; console := console p;
     requests := requests p |}.

Definition set_typingIndicator (b : bool) (p : Page) : Page :=
  {| chatHistory := chatHistory p; isProcessing := isProcessing p;
     userInput_value := userInput_value p;
     userInput_disabled := userInput_disabled p;
     sendButton_disabled := sendButton_disabled p;
     typingIndicator_visible := b;
     chatMessages := chatMessages p; console := console p;
     requests := requests p |}.

Definition set_chatMessages (els : list MessageElement) (p : Page) : Page :=
  {| chatHistory := chatHistory p; isProcessing := isProcessing p;
     userInput_value := userInput_value p;
     userInput_disabled := userInput_disabled p;
     sendButton_disabled := sendButton_disabled p;
     typingIndicator_visible := typingIndicator_visible p;
     chatMessages := els; console := console p;
     requests := requests p |}.

Definition console_error (e : LogEntry) (p : Page) : Page :=
  {| chatHistory := chatHistory p; isProcessing := isProcessing p;
     userInput_value := userInput_value p;
     userInput_disabled := userInput_disabled p;
     sendButton_disabled := sendButton_disabled p;
     typingIndicator_visible := typingIndicator_visible p;
     chatMessages := chatMessages p; console := console p ++ [e];
     requests := requests p |}.

Definition post_chat (body : list ChatMessage) (p : Page) : Page :=
  {| chatHistory := chatHistory p; isProcessing := isProcessing p;
     userInput_value := userInput_value p;
     userInput_disabled := userInput_disabled p;
     sendButton_disabled := sendButton_disabled p;
     typingIndicator_visible := typingIndicator_visible p;
     chatMessages := chatMessages p; console := console p;
     requests := requests p ++ [body] |}.

(** ** The accumulator: [processSseDataChunk] *)

Definition DONE : jsstring := Eval cbv in js "[DONE]".

(** The value of [content] once the two formats have been tried. *)
Definition extract_content (engine : Engine) (jsonData : JsValue)
  : completion JsValue :=
  response ← Get jsonData K_response;
  if is_nonempty_string response then Get jsonData K_response
  else
    c ← choices_0_delta_content_optional jsonData;
    if ToBoolean engine c then choices_0_delta_content jsonData
    else Normal (JString []).

(** The [try] block.  Nothing is written before the last step that can
    throw, so a thrown completion leaves text and page as they were. *)
Definition try_parse_chunk (engine : Engine) (data responseText : jsstring)
  (flushAssistantText : Page -> Page) (p : Page)
  : completion (jsstring * Page) :=
  jsonData ← JSON_parse data;
  content ← extract_content engine jsonData;
  if ToBoolean engine content
  then s ← ToString engine content;
       Normal (responseText ++ s, flushAssistantText p)
  else Normal (responseText, p).

Definition processSseDataChunk (engine : Engine)
  (data responseText : jsstring) (flushAssistantText : Page -> Page)
  (p : Page) : jsstring * Page :=
  if jsstring_eqb data DONE then (responseText, p)
  else
    match try_parse_chunk engine data responseText flushAssistantText p with
    | Normal r => r
    | Throw error => (responseText, console_error (LogParseFailure error data) p)
    end.

(** ** The exchange: [sendMessage] *)

(** How a response body ends: [done], or a rejected [read]. *)
Inductive StreamEnd :=
| StreamDone
| StreamFails (error : ErrorObject).

(** A response body: the texts the streaming decoder returns for the
    successive reads, and the way the stream ends. *)
Record Body := { reads : list jsstring; ending : StreamEnd }.

Record Response :=
  { ok : bool; status : N; statusText : jsstring; body : option Body }.

(** What [await fetch(...)] gives. *)
Inductive FetchOutcome :=
| FetchRejects (error : ErrorObject)
| FetchResolves (response : Response).

(** Completion of the [try] block of [sendMessage]. *)
Inductive outcome (A : Type) :=
| Completed (a : A)
| Failed (p : Page) (error : ErrorObject).
Arguments Completed {A} a.
Arguments Failed {A} p error.

Definition new_Error (message : jsstring) : ErrorObject :=
  {| error_name := js "Error"; error_message := message |}.

(** [addMessageToChat(role, content)] *)
Definition addMessageToChat (role content : jsstring) (p : Page) : Page :=
  set_chatMessages
    (chatMessages p ++
       [{| className := js "message " ++ role ++ js "-message";
           textContent := content |}]) p.

(** [createAssistantMessageElement()]: the new element is the last child
    of [chatMessages]; the result is its position. *)
Definition createAssistantMessageElement (p : Page) : nat * Page :=
  (length (chatMessages p),
   set_chatMessages
     (chatMessages p ++
        [{| className := js "message assistant-message"; textContent := [] |}])
     p).

(** The closure [flushAssistantText].  It reads [responseText], the
    variable of [sendMessage]; [outer] is that variable's value when the
    closure runs. *)
Definition flushAssistantText (assistantTextEl : nat) (outer : jsstring)
  (p : Page) : Page :=
  set_chatMessages
    (alter (fun el => {| className := className el; textContent := outer |})
       assistantTextEl (chatMessages p)) p.

(** [for (const data of parsed.events)] with its [break].  During the call
    of [processSseDataChunk] the variable [responseText] of [sendMessage]
    still holds the value passed as argument: it is assigned when the call
    returns. *)
Fixpoint process_batch (engine : Engine) (assistantTextEl : nat)
  (batch : list jsstring) (responseText : jsstring) (p : Page)
  : jsstring * Page :=
  match batch with
  | [] => (responseText, p)
  | data :: rest =>
      if jsstring_eqb data DONE then (responseText, p)
      else
        let '(responseText', p') :=
          processSseDataChunk engine data responseText
            (flushAssistantText assistantTextEl responseText) p in
        process_batch engine assistantTextEl rest responseText' p'
  end.

(** [while (true)] over the reads of the body. *)
Fixpoint read_loop (engine : Engine) (assistantTextEl : nat)
  (reads : list jsstring) (ending : StreamEnd)
  (buffer responseText : jsstring) (p : Page) : outcome (jsstring * Page) :=
  match reads with
  | [] =>
      match ending with
      | StreamFails error => Failed p error
      | StreamDone =>
          let parsed := consumeSseEvents (buffer ++ terminator) in
          Completed
            (process_batch engine assistantTextEl (events parsed)
               responseText p)
      end
  | value :: reads' =>
      let buffer := buffer ++ value in
      let '{| events := batch; buffer := buffer |} := consumeSseEvents buffer in
      let '(responseText', p') :=
        process_batch engine assistantTextEl batch responseText p in
      read_loop engine assistantTextEl reads' ending buffer responseText' p'
  end.

Definition decimal (n : N) : jsstring :=
  js (NilZero.string_of_uint (N.to_uint n)).

Definition status_error (r : Response) : ErrorObject :=
  new_Error
    (js "API request to /api/chat failed with status " ++ decimal (status r)
     ++ js ": " ++ statusText r
     ++ js ". Please try again or check your connection.").

(** The [try] block of [sendMessage]. *)
Definition exchange (engine : Engine) (net : FetchOutcome) (p : Page)
  : outcome Page :=
  let '(assistantTextEl, p) := createAssistantMessageElement p in
  let p := post_chat (chatHistory p) p in
  match net with
  | FetchRejects error => Failed p error
  | FetchResolves response =>
      if negb (ok response) then Failed p (status_error response)
      else
        match body response with
        | None => Failed p (new_Error (js "Response body is null"))
        | Some b =>
            match read_loop engine assistantTextEl (reads b) (ending b)
                    [] [] p with
            | Failed p error => Failed p error
            | Completed (responseText, p) =>
                Completed
                  (set_chatHistory
                     (chatHistory p ++
                        [{| role := js "assistant"; content := responseText |}])
                     p)
            end
        end
  end.

(** [error && error.message ? error.message : String(error)] *)
Definition errorMessage (error : ErrorObject) : jsstring :=
  match error_message error with
  | [] => error_name error
  | _ :: _ => error_message error
  end.

Definition sendMessage (engine : Engine) (net : FetchOutcome) (p : Page)
  : Page :=
  let message := trim (userInput_value p) in
  if jsstring_eqb message [] || isProcessing p then p
  else
    let p := set_processing true p in
    let p := addMessageToChat (js "user") message p in
    let p := set_userInput_value [] p in
    let p := set_typingIndicator true p in
    let p :=
      set_chatHistory
        (chatHistory p ++ [{| role := js "user"; content := message |}]) p in
    let p :=
      match exchange engine net p with
      | Completed p => p
      | Failed p error =>
          addMessageToChat (js "assistant")
            (js "Sorry, there was an error processing your request: "
             ++ errorMessage error)
            (console_error (LogError error) p)
      end in
    set_processing false (set_typingIndicator false p).

(** ** The demuxer seen alone

    The batches [read_loop] hands to the accumulator, one for every read
    and one for the end of the stream, and the buffer it carries. *)
Fixpoint demux_batches (reads : list jsstring) (buffer : jsstring)
  : list (list jsstring) :=
  match reads with
  | [] => [events (consumeSseEvents (buffer ++ terminator))]
  | value :: reads' =>
      let '{| events := batch; buffer := buffer |} :=
        consumeSseEvents (buffer ++ value) in
      batch :: demux_batches reads' buffer
  end.

(** The buffer [read_loop] holds after the reads. *)
Fixpoint pending_buffer (reads : list jsstring) (buffer : jsstring)
  : jsstring :=
  match reads with
  | [] => buffer
  | value :: reads' =>
      let '{| events := _; buffer := buffer |} :=
        consumeSseEvents (buffer ++ value) in
      pending_buffer reads' buffer
  end.

(** What one raw record adds to [events]: its payload, or nothing. *)
Definition emitted (rawEvent : jsstring) : list jsstring :=
  match collect_data_lines (split rawEvent LF) with
  | [] => []
  | dataLines => [join dataLines [LF]]
  end.

(** The delta of a payload: the text that ingesting it appends. *)
Definition delta (engine : Engine) (data : jsstring) : jsstring :=
  match
    jsonData ← JSON_parse data;
    content ← extract_content engine jsonData;
    if ToBoolean engine content then ToString engine content else Normal []
  with
  | Normal s => s
  | Throw _ => []
  end.

(** The delta after the policy of the specification: a [response] that is
    a non-empty string; otherwise a non-empty string at
    [choices[0].delta.content]; otherwise nothing. *)
Definition policy_delta (data : jsstring) : jsstring :=
  match JSON_parse data with
  | Throw _ => []
  | Normal jsonData =>
      match Get jsonData K_response with
      | Normal (JString (c :: s)) => c :: s
      | _ =>
          match choices_0_delta_content_optional jsonData with
          | Normal (JString (c :: s)) => c :: s
          | _ => []
          end
      end
  end.

(** Two texts that differ only in carriage returns: each is obtained from
    the other by inserting and removing carriage returns anywhere. *)
Inductive same_up_to_CR : jsstring -> jsstring -> Prop :=
| same_nil : same_up_to_CR [] []
| same_cons c a b : same_up_to_CR a b -> same_up_to_CR (c :: a) (c :: b)
| same_CR_left a b : same_up_to_CR a b -> same_up_to_CR (CR :: a) b
| same_CR_right a b : same_up_to_CR a b -> same_up_to_CR a (CR :: b).

(** A text without carriage return. *)
Definition no_CR (s : jsstring) : Prop := Forall (fun c => c <> CR) s.

(** What the accumulator makes of the batches of a stream. *)
Definition ingest_batches (engine : Engine) (assistantTextEl : nat)
  (batches : list (list jsstring)) (responseText : jsstring) (p : Page)
  : jsstring * Page :=
  fold_left
    (fun st batch => process_batch engine assistantTextEl batch (fst st) (snd st))
    batches (responseText, p).

(** An engine to run the examples on.  A literal is rounded to the nearest
    double, so it is zero when its value is at most [2^-1075]; a number is
    printed in plain decimal notation, which is what [Number::toString]
    gives for a literal of at most 15 significant digits whose value [v] is
    [0] or has [1e-6 <= |v| < 1e21]. *)
Definition rounds_to_zero (n : NumericLiteral) : bool :=
  let m := Z.of_N (num_mantissa n) in
  if (0 <=? num_exp10 n)%Z then (m =? 0)%Z
  else (m * 2 ^ 1075 <=? 10 ^ (- num_exp10 n))%Z.

Fixpoint fraction_digits (k : nat) (f : N) : jsstring :=
  match k with
  | O => []
  | S k' => (48 + f / 10 ^ N.of_nat k') :: fraction_digits k' (f mod 10 ^ N.of_nat k')
  end.

Fixpoint drop_zeros (s : jsstring) : jsstring :=
  match s with
  | [] => []
  | c :: s' => if c =? 48 then drop_zeros s' else s
  end.

Definition plain_decimal (n : NumericLiteral) : jsstring :=
  let m := num_mantissa n in
  let k := Z.to_nat (- num_exp10 n) in
  let scale := 10 ^ N.of_nat k in
  let whole := if (0 <=? num_exp10 n)%Z
               then m * 10 ^ Z.to_N (num_exp10 n) else m / scale in
  let frac := if (0 <=? num_exp10 n)%Z then [] else
                rev (drop_zeros (rev (fraction_digits k (m mod scale)))) in
  (if num_neg n && negb (m =? 0) then js "-" else [])
  ++ decimal whole
  ++ match frac with [] => [] | _ :: _ => js "." ++ frac end.

Definition example_engine : Engine :=
  {| Number_ToBoolean := fun n => negb (rounds_to_zero n);
     Number_ToString := plain_decimal |}.

(** A literal written with ['] where the text has a double quote. *)
Definition jsq (s : string) : jsstring :=
  List.map (fun c => if c =? 39 then 34 else c) (js s).

Definition empty_page : Page :=
  {| chatHistory := []; isProcessing := false; userInput_value := [];
     userInput_disabled := false; sendButton_disabled := false;
     typingIndicator_visible := false; chatMessages := []; console := [];
     requests := [] |}.


(** ** Well-formed input, for the properties of the decoder *)

(** A text occurs in another. *)
Definition occurs (t s : jsstring) : Prop :=
  exists pre post, s = pre ++ t ++ post.

(** A line that a [data:] field carries unchanged: no line feed, no
    carriage return, no white space in front. *)
Definition plain_line (l : jsstring) : Prop :=
  Forall (fun c => c <> LF /\ c <> CR) l /\ trimStart l = l.

(** The record of a payload of several lines as a server frames it: one
    [data: ] line for every line of the payload.  The terminator is not
    part of it. *)
Definition data_field : jsstring := Eval cbv in js "data: ".

Definition data_record (lines : list jsstring) : jsstring :=
  join (List.map (fun l => data_field ++ l) lines) [LF].

(** A stream of framed records. *)
Definition framed (records : list (list jsstring)) : jsstring :=
  concat (List.map (fun lines => data_record lines ++ terminator) records).

(** A buffer on which a pass extracts nothing and that it returns as it
    is. *)
Definition settled (b : jsstring) : Prop :=
  consumeSseEvents b = {| events := []; buffer := b |}.

(** The payloads of a batch that stand before its first sentinel. *)
Fixpoint before_DONE (batch : list jsstring) : list jsstring :=
  match batch with
  | [] => []
  | data :: rest =>
      if jsstring_eqb data DONE then [] else data :: before_DONE rest
  end.

(** The text shown in the element at a position of [chatMessages]. *)
Definition shown (el : nat) (p : Page) : option jsstring :=
  textContent <$> (chatMessages p !! el).

(** Two pages that differ at most in the text of one message element and
    in what was logged since. *)
Definition streamed_into (el : nat) (p q : Page) : Prop :=
  chatHistory q = chatHistory p /\
  isProcessing q = isProcessing p /\
  userInput_value q = userInput_value p /\
  userInput_disabled q = userInput_disabled p /\
  sendButton_disabled q = sendButton_disabled p /\
  typingIndicator_visible q = typingIndicator_visible p /\
  requests q = requests p /\
  List.map className (chatMessages q) = List.map className (chatMessages p) /\
  (forall i, i <> el -> chatMessages q !! i = chatMessages p !! i) /\
  console p `prefix_of` console q.

(** The error an exchange ends with, read off the answer of the network:
    a rejected [fetch], a status that is not ok, a missing body, a read
    that fails. *)
Definition transport_error (net : FetchOutcome) : option ErrorObject :=
  match net with
  | FetchRejects error => Some error
  | FetchResolves response =>
      if negb (ok response) then Some (status_error response)
      else match body response with
           | None => Some (new_Error (js "Response body is null"))
           | Some b =>
               match ending b with
               | StreamFails error => Some error
               | StreamDone => None
               end
           end
  end.

(** The chunks of the body of an answer, when it has one. *)
Definition body_chunks (net : FetchOutcome) : list jsstring :=
  match net with
  | FetchResolves response =>
      match body response with
      | Some b => reads b
      | None => []
      end
  | FetchRejects _ => []
  end.

(** The entry of the history and the element of the chat for a message of
    the user, and the element that reports an error. *)
Definition user_entry (message : jsstring) : ChatMessage :=
  {| role := js "user"; content := message |}.

Definition assistant_entry (text : jsstring) : ChatMessage :=
  {| role := js "assistant"; content := text |}.

Definition user_element (message : jsstring) : MessageElement :=
  {| className := js "message user-message"; textContent := message |}.

Definition assistant_element (text : jsstring) : MessageElement :=
  {| className := js "message assistant-message"; textContent := text |}.

Definition apology (error : ErrorObject) : jsstring :=
  js "Sorry, there was an error processing your request: "
  ++ errorMessage error.

(** The chat after some flushes into the element at [el]: as before, or
    with the text of that element replaced. *)
Definition chat_streamed (el : nat) (l l' : list MessageElement) : Prop :=
  l' = l \/
  exists text,
    l' = alter (fun x => {| className := className x; textContent := text |})
           el l.

(** The page after a step of the stream, as far as the step can change
    it. *)
Definition stream_step (el : nat) (p q : Page) : Prop :=
  chatHistory q = chatHistory p /\
  isProcessing q = isProcessing p /\
  userInput_value q = userInput_value p /\
  userInput_disabled q = userInput_disabled p /\
  sendButton_disabled q = sendButton_disabled p /\
  typingIndicator_visible q = typingIndicator_visible p /\
  requests q = requests p /\
  chat_streamed el (chatMessages p) (chatMessages q) /\
  console p `prefix_of` console q.

(** The page the read loop ends with, whether it completes or fails. *)
Definition outcome_page {A} (o : outcome (A * Page)) : Page :=
  match o with
  | Completed (_, q) => q
  | Failed q _ => q
  end.

(** The page on which the [try] block of an accepted call starts. *)
Definition entered (p : Page) : Page :=
  let message := trim (userInput_value p) in
  set_chatHistory (chatHistory p ++ [user_entry message])
    (set_typingIndicator true
       (set_userInput_value []
          (addMessageToChat (js "user") message (set_processing true p)))).

(** The text of an exchange, from the reads of its body. *)
Definition exchange_text (engine : Engine) (chunks : list jsstring)
  : jsstring :=
  concat (List.map
            (fun batch => concat (List.map (delta engine) (before_DONE batch)))
            (demux_batches chunks [])).

(** The page on which the request has gone out, the page on which an
    error has been reported, and the page once [finally] has run. *)
Definition requested (p : Page) : Page :=
  post_chat (chatHistory (snd (createAssistantMessageElement p)))
    (snd (createAssistantMessageElement p)).

Definition reported (error : ErrorObject) (p : Page) : Page :=
  addMessageToChat (js "assistant") (apology error)
    (console_error (LogError error) p).

Definition released (p : Page) : Page :=
  set_processing false (set_typingIndicator false p).

(** The [data:] lines of a record and the values of their fields, as the
    loop over the lines collects them. *)
Definition is_data_line (line : jsstring) : bool :=
  startsWith line data_prefix.

Definition field_value (line : jsstring) : jsstring :=
  trimStart (slice_from line (length data_prefix)).

Definition data_lines_of (record : jsstring) : list jsstring :=
  List.map field_value (List.filter is_data_line (split record LF)).

(** What an exchange adds to the history behind the message of the user:
    the answer when it completes, nothing when it fails. *)
Definition answer_entries (engine : Engine) (net : FetchOutcome)
  : list ChatMessage :=
  match transport_error net with
  | Some _ => []
  | None => [assistant_entry (exchange_text engine (body_chunks net))]
  end.
(** * Properties *)

(** ** Strings *)

Lemma jsstring_eqb_eq (a b : jsstring) : jsstring_eqb a b = true <-> a = b.
Proof. unfold jsstring_eqb. apply bool_decide_eq_true. Qed.

Lemma jsstring_eqb_neq (a b : jsstring) : jsstring_eqb a b = false <-> a <> b.
Proof. unfold jsstring_eqb. apply bool_decide_eq_false. Qed.

Lemma replace_CR_app (a b : jsstring) :
  replace_CR (a ++ b) = replace_CR a ++ replace_CR b.
Proof. unfold replace_CR. apply List.filter_app. Qed.

Lemma replace_CR_idem (s : jsstring) : replace_CR (replace_CR s) = replace_CR s.
Proof.
  unfold replace_CR. induction s as [|c s IH]; simpl; [reflexivity|].
  destruct (negb (c =? CR)) eqn:E; simpl; rewrite ?E, IH; reflexivity.
Qed.

Lemma replace_CR_length (s : jsstring) :
  (length (replace_CR s) <= length s)%nat.
Proof.
  unfold replace_CR. induction s as [|c s IH]; simpl; [lia|].
  destruct (negb (c =? CR)); simpl; lia.
Qed.

Lemma replace_CR_terminator : replace_CR terminator = terminator.
Proof. reflexivity. Qed.

(** [startsWith] decides that the prefix is an initial segment. *)
Lemma startsWith_spec (s t : jsstring) :
  startsWith s t = true <-> exists rest, s = t ++ rest.
Proof.
  revert s. induction t as [|p t IH]; intros s; simpl.
  - split; [intros _; exists s; reflexivity | destruct s; reflexivity].
  - destruct s as [|c s]; simpl.
    + split; [discriminate | intros [r H]; discriminate].
    + rewrite andb_true_iff, N.eqb_eq, IH. split.
      * intros [-> [r ->]]. exists r. reflexivity.
      * intros [r H]. injection H as -> ->. split; [reflexivity|eauto].
Qed.

Lemma startsWith_app_long (s y t : jsstring) :
  (length t <= length s)%nat -> startsWith (s ++ y) t = startsWith s t.
Proof.
  revert s. induction t as [|p t IH]; intros s H; simpl.
  - destruct s, y; reflexivity.
  - destruct s as [|c s]; simpl in *; [lia|].
    rewrite IH by lia. reflexivity.
Qed.

Lemma startsWith_length (s t : jsstring) :
  startsWith s t = true -> (length t <= length s)%nat.
Proof.
  intros H. apply startsWith_spec in H as [r ->]. rewrite length_app. lia.
Qed.

Lemma indexOf_nil (t : jsstring) :
  indexOf [] t = match t with [] => Some 0%nat | _ :: _ => None end.
Proof. destruct t; reflexivity. Qed.

Lemma indexOf_cons (c : N) (s t : jsstring) :
  indexOf (c :: s) t =
  if startsWith (c :: s) t then Some 0%nat else option_map S (indexOf s t).
Proof. reflexivity. Qed.

(** [indexOf] finds an occurrence... *)
Lemma indexOf_Some (s t : jsstring) (i : nat) :
  indexOf s t = Some i ->
  s = firstn i s ++ t ++ skipn (i + length t) s.
Proof.
  revert i. induction s as [|c s IH]; intros i.
  - rewrite indexOf_nil. destruct t; [|discriminate].
    intros [= <-]. reflexivity.
  - rewrite indexOf_cons. destruct (startsWith (c :: s) t) eqn:E.
    + intros [= <-]. apply startsWith_spec in E as [r E].
      rewrite E. simpl. rewrite drop_app_length. reflexivity.
    + destruct (indexOf s t) as [j|] eqn:Ej; simpl; [|discriminate].
      intros [= <-]. simpl. f_equal. apply IH. reflexivity.
Qed.

(** ... and the first one. *)
Lemma indexOf_first (s t : jsstring) (i j : nat) :
  indexOf s t = Some i -> (j < i)%nat -> startsWith (skipn j s) t = false.
Proof.
  revert i j. induction s as [|c s IH]; intros i j.
  - rewrite indexOf_nil. destruct t; [intros [= <-]; lia | discriminate].
  - rewrite indexOf_cons.
    destruct (startsWith (c :: s) t) eqn:E; [intros [= <-]; lia|].
    destruct (indexOf s t) as [k|] eqn:Ek; simpl; [|discriminate].
    intros [= <-] Hj. destruct j as [|j]; simpl; [exact E|].
    apply (IH k); [reflexivity | lia].
Qed.

Lemma indexOf_None (s t : jsstring) :
  indexOf s t = None -> forall pre post, s <> pre ++ t ++ post.
Proof.
  induction s as [|c s IH].
  - rewrite indexOf_nil. destruct t; [discriminate|].
    intros _ pre post H. destruct pre; discriminate.
  - rewrite indexOf_cons.
    destruct (startsWith (c :: s) t) eqn:E; [discriminate|].
    destruct (indexOf s t) eqn:Ei; simpl; [discriminate|].
    intros _ pre post H. destruct pre as [|c' pre]; simpl in H.
    + assert (startsWith (c :: s) t = true) by (apply startsWith_spec; eauto).
      congruence.
    + injection H as _ H. exact (IH eq_refl pre post H).
Qed.

Lemma indexOf_bound (s t : jsstring) (i : nat) :
  indexOf s t = Some i -> (i + length t <= length s)%nat.
Proof.
  revert i. induction s as [|c s IH]; intros i.
  - rewrite indexOf_nil. destruct t; [intros [= <-]; simpl; lia | discriminate].
  - rewrite indexOf_cons. destruct (startsWith (c :: s) t) eqn:E.
    + intros [= <-]. apply startsWith_length in E. lia.
    + destruct (indexOf s t) as [k|] eqn:Ek; simpl; [|discriminate].
      intros [= <-]. specialize (IH k eq_refl). lia.
Qed.

Lemma indexOf_app_l (x y t : jsstring) (i : nat) :
  indexOf x t = Some i -> indexOf (x ++ y) t = Some i.
Proof.
  revert i. induction x as [|c x IH]; intros i.
  - rewrite indexOf_nil. destruct t; [|discriminate].
    intros [= <-]. destruct y; reflexivity.
  - intros H. pose proof (indexOf_bound _ _ _ H) as Hb.
    assert (Hs : (length t <= length (c :: x))%nat) by lia.
    apply (startsWith_app_long _ y) in Hs. simpl app in Hs.
    revert H. simpl app. rewrite !indexOf_cons, Hs.
    destruct (startsWith (c :: x) t) eqn:E; [trivial|].
    destruct (indexOf x t) as [k|] eqn:Ek; simpl; [|discriminate].
    intros [= <-]. rewrite (IH k eq_refl). reflexivity.
Qed.

(** ** The extraction loop *)

Lemma consume_loop_S (fuel : nat) (s : jsstring) (acc : list jsstring) :
  consume_loop (S fuel) s acc =
  match indexOf s terminator with
  | None => {| events := acc; buffer := s |}
  | Some i => consume_loop fuel (skipn (i + 2) s) (acc ++ emitted (firstn i s))
  end.
Proof.
  simpl. destruct (indexOf s terminator) as [i|]; [|reflexivity].
  unfold emitted, slice, slice_from. rewrite Nat.sub_0_r, skipn_O.
  destruct (collect_data_lines (split (firstn i s) LF)); simpl.
  - rewrite app_nil_r. reflexivity.
  - reflexivity.
Qed.

Lemma consume_loop_no_terminator (fuel : nat) (s : jsstring)
  (acc : list jsstring) :
  indexOf s terminator = None ->
  consume_loop fuel s acc = {| events := acc; buffer := s |}.
Proof.
  intros H. destruct fuel; [reflexivity|]. rewrite consume_loop_S, H.
  reflexivity.
Qed.

(** The accumulator [events] is only ever appended to. *)
Lemma consume_loop_acc (fuel : nat) (s : jsstring) (acc : list jsstring) :
  consume_loop fuel s acc =
  {| events := acc ++ events (consume_loop fuel s []);
     buffer := buffer (consume_loop fuel s []) |}.
Proof.
  revert s acc. induction fuel as [|fuel IH]; intros s acc.
  - simpl. rewrite app_nil_r. reflexivity.
  - rewrite !consume_loop_S. destruct (indexOf s terminator) as [i|].
    + rewrite IH. rewrite (IH _ ([] ++ _)). simpl. rewrite app_assoc.
      reflexivity.
    + simpl. rewrite app_nil_r. reflexivity.
Qed.

Lemma skipn_terminator_length (s : jsstring) (i : nat) :
  indexOf s terminator = Some i ->
  (length (skipn (i + 2) s) + 2 <= length s)%nat.
Proof.
  intros H. apply indexOf_bound in H. simpl in H.
  rewrite length_skipn. lia.
Qed.

(** The loop ends by its own test: fuel beyond the length of the buffer is
    never used. *)
Lemma consume_loop_fuel (f1 f2 : nat) (s : jsstring) (acc : list jsstring) :
  (length s <= f1)%nat -> (length s <= f2)%nat ->
  consume_loop f1 s acc = consume_loop f2 s acc.
Proof.
  revert f2 s acc. induction f1 as [|f1 IH]; intros f2 s acc H1 H2.
  - destruct s; [|simpl in H1; lia].
    rewrite !consume_loop_no_terminator; reflexivity.
  - destruct f2 as [|f2].
    + destruct s; [|simpl in H2; lia].
      rewrite !consume_loop_no_terminator; reflexivity.
    + rewrite !consume_loop_S.
      destruct (indexOf s terminator) as [i|] eqn:E; [|reflexivity].
      apply skipn_terminator_length in E. apply IH; lia.
Qed.

Lemma consume_loop_exhaustive (fuel : nat) (s : jsstring)
  (acc : list jsstring) :
  (length s <= fuel)%nat ->
  indexOf (buffer (consume_loop fuel s acc)) terminator = None.
Proof.
  revert s acc. induction fuel as [|fuel IH]; intros s acc H.
  - destruct s; [reflexivity | simpl in H; lia].
  - rewrite consume_loop_S.
    destruct (indexOf s terminator) as [i|] eqn:E; [|exact E].
    apply skipn_terminator_length in E. apply IH. lia.
Qed.

(** Text that arrives behind the buffer does not change what the loop
    extracts from the buffer: the loop goes on with the remainder. *)
Lemma consume_loop_app (f f1 f2 : nat) (x y : jsstring)
  (acc : list jsstring) :
  (length x <= f)%nat ->
  (length (x ++ y) <= f1)%nat ->
  (length (buffer (consume_loop f x acc) ++ y) <= f2)%nat ->
  consume_loop f1 (x ++ y) acc =
  consume_loop f2 (buffer (consume_loop f x acc) ++ y)
    (events (consume_loop f x acc)).
Proof.
  revert f1 x acc. induction f as [|f IH]; intros f1 x acc Hx H1 H2.
  - destruct x; [|simpl in Hx; lia]. simpl in *.
    apply consume_loop_fuel; assumption.
  - revert H2. rewrite consume_loop_S.
    destruct (indexOf x terminator) as [i|] eqn:E.
    + intros H2. pose proof (indexOf_bound _ _ _ E) as Hb. simpl in Hb.
      pose proof (skipn_terminator_length _ _ E) as Hl.
      destruct f1 as [|f1]; [rewrite length_app in H1; lia|].
      rewrite consume_loop_S, (indexOf_app_l _ y _ _ E).
      rewrite skipn_app, firstn_app.
      replace (i + 2 - length x)%nat with 0%nat by lia.
      replace (i - length x)%nat with 0%nat by lia.
      simpl skipn at 2. simpl firstn at 2. rewrite app_nil_r.
      apply IH; [lia | | exact H2].
      rewrite length_app in *. lia.
    + simpl. intros H2. apply consume_loop_fuel; assumption.
Qed.

Lemma replace_CR_no_CR (s : jsstring) : no_CR (replace_CR s).
Proof.
  unfold no_CR, replace_CR. induction s as [|c s IH]; simpl; [constructor|].
  destruct (c =? CR) eqn:E; simpl; [exact IH|].
  constructor; [apply N.eqb_neq; exact E | exact IH].
Qed.

Lemma no_CR_replace_CR (s : jsstring) : no_CR s -> replace_CR s = s.
Proof.
  unfold no_CR, replace_CR. induction 1 as [|c s Hc Hs IH]; simpl; [reflexivity|].
  apply N.eqb_neq in Hc. rewrite Hc. simpl. rewrite IH. reflexivity.
Qed.

Lemma consume_loop_no_CR (fuel : nat) (s : jsstring) (acc : list jsstring) :
  no_CR s -> no_CR (buffer (consume_loop fuel s acc)).
Proof.
  revert s acc. induction fuel as [|fuel IH]; intros s acc H; [exact H|].
  rewrite consume_loop_S. destruct (indexOf s terminator) as [i|]; [|exact H].
  apply IH. unfold no_CR in *. apply Forall_drop. exact H.
Qed.

Lemma consumeSseEvents_buffer_no_CR (b : jsstring) :
  replace_CR (buffer (consumeSseEvents b)) = buffer (consumeSseEvents b).
Proof.
  apply no_CR_replace_CR. unfold consumeSseEvents.
  apply consume_loop_no_CR, replace_CR_no_CR.
Qed.

(** Extraction from a buffer that grew: first what the old buffer held,
    then what its remainder and the new text hold. *)
Lemma consumeSseEvents_app (x y : jsstring) :
  consumeSseEvents (x ++ y) =
  {| events := events (consumeSseEvents x)
               ++ events (consumeSseEvents (buffer (consumeSseEvents x) ++ y));
     buffer := buffer (consumeSseEvents (buffer (consumeSseEvents x) ++ y)) |}.
Proof.
  unfold consumeSseEvents at 1 3 5.
  rewrite !replace_CR_app, consumeSseEvents_buffer_no_CR.
  unfold consumeSseEvents.
  rewrite (consume_loop_app (length (replace_CR x))
             (length (replace_CR x ++ replace_CR y))
             (length (buffer (consume_loop (length (replace_CR x))
                                (replace_CR x) []) ++ replace_CR y)));
    [|lia..].
  apply consume_loop_acc.
Qed.

(** ** The demuxer over a chunked stream *)

(** [read_loop] is the accumulator run over the batches of the demuxer. *)
Lemma read_loop_batches (engine : Engine) (el : nat) (chunks : list jsstring)
  (b rt : jsstring) (p : Page) :
  read_loop engine el chunks StreamDone b rt p =
  Completed (ingest_batches engine el (demux_batches chunks b) rt p).
Proof.
  revert b rt p. induction chunks as [|v chunks IH]; intros b rt p; simpl.
  - unfold ingest_batches. simpl. destruct (process_batch _ _ _ _ _).
    reflexivity.
  - destruct (consumeSseEvents (b ++ v)) as [batch b'].
    destruct (process_batch engine el batch rt p) as [rt' p'] eqn:E.
    rewrite IH. unfold ingest_batches. simpl. rewrite E. reflexivity.
Qed.

(** All the payloads of a stream are those of its whole text, terminated. *)
Lemma demux_batches_concat (chunks : list jsstring) (b : jsstring) :
  concat (demux_batches chunks b) =
  events (consumeSseEvents (b ++ concat chunks ++ terminator)).
Proof.
  revert b. induction chunks as [|v chunks IH]; intros b; simpl.
  - rewrite app_nil_r. reflexivity.
  - rewrite <- app_assoc, (app_assoc b).
    rewrite (consumeSseEvents_app (b ++ v) (concat chunks ++ terminator)).
    destruct (consumeSseEvents (b ++ v)) as [batch b']. simpl.
    rewrite IH. reflexivity.
Qed.

(** C1. Chunk-split invariance: however a text is cut into chunks, also
    inside a terminator, a [data:] prefix or a payload, the extraction
    loop with its carried buffer, followed by the flush at the end of the
    stream, emits the same sequence of payloads. *)
Theorem chunk_split_invariance (text : jsstring)
  (chunks1 chunks2 : list jsstring) :
  concat chunks1 = text -> concat chunks2 = text ->
  concat (demux_batches chunks1 []) = concat (demux_batches chunks2 []).
Proof.
  intros H1 H2. rewrite !demux_batches_concat, H1, H2. reflexivity.
Qed.

Lemma chunk_split_invariance_witness :
  concat (demux_batches
            [js "da"; jsq "ta: {'respo"; jsq "nse':'Hel'}" ++ [LF];
             [LF] ++ jsq "data: {'response':'lo'}" ++ [LF; LF]] []) =
  concat (demux_batches
            [jsq "data: {'response':'Hel'}" ++ [LF; LF]
             ++ jsq "data: {'response':'lo'}" ++ [LF; LF]] []).
Proof.
  apply (chunk_split_invariance
           (jsq "data: {'response':'Hel'}" ++ [LF; LF]
            ++ jsq "data: {'response':'lo'}" ++ [LF; LF]));
    vm_compute; reflexivity.
Defined.

(** C6. Extraction is exhaustive: the buffer [consumeSseEvents] returns
    holds no two consecutive line feeds, whatever the input. *)
Theorem extraction_exhaustive (b : jsstring) :
  indexOf (buffer (consumeSseEvents b)) terminator = None /\
  forall pre post, buffer (consumeSseEvents b) <> pre ++ [LF; LF] ++ post.
Proof.
  assert (H : indexOf (buffer (consumeSseEvents b)) terminator = None).
  { unfold consumeSseEvents. apply consume_loop_exhaustive. lia. }
  split; [exact H|]. apply (indexOf_None _ _ H).
Qed.

(** ** Carriage returns *)

Lemma same_up_to_CR_replace_CR (a b : jsstring) :
  same_up_to_CR a b -> replace_CR a = replace_CR b.
Proof.
  induction 1 as [|c a b _ IH|a b _ IH|a b _ IH]; simpl.
  - reflexivity.
  - unfold replace_CR in *. simpl. destruct (negb (c =? CR)); congruence.
  - exact IH.
  - exact IH.
Qed.

Lemma replace_CR_nil_same (b : jsstring) :
  replace_CR b = [] -> same_up_to_CR [] b.
Proof.
  induction b as [|d b IH]; [constructor|].
  unfold replace_CR in *. simpl. destruct (d =? CR) eqn:E; simpl.
  - apply N.eqb_eq in E as ->. intros H. apply same_CR_right, IH, H.
  - discriminate.
Qed.

Lemma replace_CR_same_up_to_CR (a b : jsstring) :
  replace_CR a = replace_CR b -> same_up_to_CR a b.
Proof.
  revert b. induction a as [|c a IHa]; intros b.
  - intros H. apply replace_CR_nil_same. symmetry. exact H.
  - destruct (c =? CR) eqn:E.
    + apply N.eqb_eq in E as ->. intros H. apply same_CR_left, IHa, H.
    + induction b as [|d b IHb].
      * unfold replace_CR. simpl. rewrite E. discriminate.
      * destruct (d =? CR) eqn:Ed.
        -- apply N.eqb_eq in Ed as ->. intros H. apply same_CR_right, IHb, H.
        -- unfold replace_CR in *. simpl. rewrite E, Ed. simpl.
           intros [= -> H]. apply same_cons, IHa, H.
Qed.

(** The relation is exactly: equal once the carriage returns are gone. *)
Lemma same_up_to_CR_iff (a b : jsstring) :
  same_up_to_CR a b <-> replace_CR a = replace_CR b.
Proof.
  split; [apply same_up_to_CR_replace_CR | apply replace_CR_same_up_to_CR].
Qed.

Lemma consumeSseEvents_ext (a b : jsstring) :
  replace_CR a = replace_CR b -> consumeSseEvents a = consumeSseEvents b.
Proof. unfold consumeSseEvents. intros ->. reflexivity. Qed.

(** A single call: the carriage returns of the input change nothing, and
    the input without them gives the same result. *)
Lemma consumeSseEvents_CR (a b : jsstring) :
  same_up_to_CR a b -> consumeSseEvents a = consumeSseEvents b.
Proof. intros H. apply consumeSseEvents_ext, same_up_to_CR_replace_CR, H. Qed.

Lemma consumeSseEvents_replace_CR (b : jsstring) :
  consumeSseEvents (replace_CR b) = consumeSseEvents b.
Proof. apply consumeSseEvents_ext, replace_CR_idem. Qed.

Lemma demux_same_up_to_CR (chunks1 chunks2 : list jsstring) (b : jsstring) :
  Forall2 same_up_to_CR chunks1 chunks2 ->
  demux_batches chunks1 b = demux_batches chunks2 b /\
  pending_buffer chunks1 b = pending_buffer chunks2 b.
Proof.
  intros H. revert b. induction H as [|v1 v2 cs1 cs2 Hv _ IH]; intros b.
  - split; reflexivity.
  - simpl. apply same_up_to_CR_replace_CR in Hv.
    rewrite (consumeSseEvents_ext (b ++ v1) (b ++ v2))
      by (rewrite !replace_CR_app, Hv; reflexivity).
    destruct (consumeSseEvents (b ++ v2)) as [batch b'].
    destruct (IH b') as [-> ->]. split; reflexivity.
Qed.

Lemma same_up_to_CR_map_replace_CR (chunks : list jsstring) :
  Forall2 same_up_to_CR chunks (List.map replace_CR chunks).
Proof.
  induction chunks as [|v chunks IH]; simpl; constructor; [|exact IH].
  apply same_up_to_CR_iff. symmetry. apply replace_CR_idem.
Qed.

(** C7. Carriage-return invariance: two chunk streams that differ only by
    carriage returns, inserted or removed anywhere in any chunk, give the
    same batches of payloads, the flush included, and leave the same
    buffer; both are those of the stream without any carriage return. *)
Theorem carriage_return_invariance (chunks1 chunks2 : list jsstring)
  (b : jsstring) :
  Forall2 same_up_to_CR chunks1 chunks2 ->
  demux_batches chunks1 b = demux_batches chunks2 b /\
  pending_buffer chunks1 b = pending_buffer chunks2 b /\
  demux_batches chunks1 b = demux_batches (List.map replace_CR chunks1) b /\
  pending_buffer chunks1 b = pending_buffer (List.map replace_CR chunks1) b.
Proof.
  intros H.
  destruct (demux_same_up_to_CR chunks1 chunks2 b H) as [H1 H2].
  destruct (demux_same_up_to_CR chunks1 _ b
              (same_up_to_CR_map_replace_CR chunks1)) as [H3 H4].
  repeat split; assumption.
Qed.

Lemma carriage_return_invariance_witness :
  let chunks1 :=
    [js "data: a" ++ [CR; LF]; [CR; LF; CR] ++ js "da" ++ [CR] ++ js "ta: b"] in
  let chunks2 := [js "data: a" ++ [LF]; [LF] ++ js "data: b" ++ [CR]] in
  demux_batches chunks1 [] = demux_batches chunks2 [] /\
  pending_buffer chunks1 [] = pending_buffer chunks2 [] /\
  demux_batches chunks1 [] = demux_batches (List.map replace_CR chunks1) [] /\
  pending_buffer chunks1 [] = pending_buffer (List.map replace_CR chunks1) [].
Proof.
  apply carriage_return_invariance.
  repeat constructor; apply same_up_to_CR_iff; vm_compute; reflexivity.
Defined.

(** ** Records *)

Lemma indexOf_intro (s t : jsstring) (i : nat) :
  startsWith (skipn i s) t = true ->
  (forall j, (j < i)%nat -> startsWith (skipn j s) t = false) ->
  indexOf s t = Some i.
Proof.
  revert s. induction i as [|i IH]; intros s Hi Hj.
  - rewrite skipn_O in Hi. destruct s as [|c s].
    + rewrite indexOf_nil. destruct t; [reflexivity | discriminate].
    + rewrite indexOf_cons, Hi. reflexivity.
  - pose proof (Hj 0%nat ltac:(lia)) as H0. rewrite skipn_O in H0.
    destruct s as [|c s].
    + rewrite skipn_nil in Hi. congruence.
    + rewrite indexOf_cons, H0. rewrite (IH s); [reflexivity | exact Hi |].
      intros j Hlt. apply (Hj (S j)). lia.
Qed.

Lemma endsWith_snoc (pre : jsstring) (c : N) : endsWith (pre ++ [c]) [c] = true.
Proof.
  unfold endsWith. rewrite rev_app_distr. simpl. rewrite N.eqb_refl.
  destruct (rev pre); reflexivity.
Qed.

(** The terminator behind a record is the first one of the buffer when the
    record holds none and does not end in a line feed. *)
Lemma record_terminator_index (record rest : jsstring) :
  indexOf record terminator = None ->
  endsWith record [LF] = false ->
  indexOf (record ++ terminator ++ rest) terminator = Some (length record).
Proof.
  intros Hnone Hend. apply indexOf_intro.
  - rewrite drop_app_length. apply startsWith_spec. eauto.
  - intros j Hj. destruct (startsWith _ terminator) eqn:E; [|reflexivity].
    exfalso. apply startsWith_spec in E as [r E].
    rewrite skipn_app in E. replace (j - length record)%nat with 0%nat in E by lia.
    rewrite skipn_O in E.
    pose proof (firstn_skipn j record) as Hsplit.
    destruct (skipn j record) as [|c1 [|c2 tl]] eqn:Es.
    + apply (f_equal (@length N)) in Es. rewrite length_skipn in Es.
      simpl in Es. lia.
    + simpl in E. injection E as -> _.
      rewrite <- Hsplit, endsWith_snoc in Hend. discriminate.
    + simpl in E. injection E as -> -> _.
      apply (indexOf_None _ _ Hnone (firstn j record) tl).
      symmetry. exact Hsplit.
Qed.

(** One complete record at the head of the input: the call emits what the
    record yields and goes on with the rest. *)
Lemma consumeSseEvents_record (record rest : jsstring) :
  no_CR record ->
  indexOf record terminator = None ->
  endsWith record [LF] = false ->
  consumeSseEvents (record ++ terminator ++ rest) =
  {| events := emitted record ++ events (consumeSseEvents rest);
     buffer := buffer (consumeSseEvents rest) |}.
Proof.
  intros Hcr Hnone Hend. unfold consumeSseEvents.
  rewrite !replace_CR_app, replace_CR_terminator, (no_CR_replace_CR _ Hcr).
  pose proof (record_terminator_index record (replace_CR rest) Hnone Hend) as Hi.
  set (s := record ++ terminator ++ replace_CR rest) in *.
  rewrite (consume_loop_fuel (length s) (S (length s))) by lia.
  rewrite consume_loop_S, Hi. unfold s.
  rewrite take_app_length.
  replace (length record + 2)%nat with (length (record ++ terminator))
    by (rewrite length_app; reflexivity).
  rewrite (app_assoc record), drop_app_length. simpl app at 1.
  rewrite consume_loop_acc.
  rewrite (consume_loop_fuel _ (length (replace_CR rest)));
    [reflexivity | rewrite !length_app; lia | lia].
Qed.

Lemma collect_no_data_lines (lines acc : list jsstring) :
  Forall (fun line => startsWith line data_prefix = false) lines ->
  fold_left push_data_line lines acc = acc.
Proof.
  intros H. revert acc. induction H as [|line lines Hl _ IH]; intros acc.
  - reflexivity.
  - simpl. unfold push_data_line at 2. rewrite Hl. apply IH.
Qed.

(** C8. A complete record none of whose lines begins with [data:] emits no
    payload, not even an empty one; the record and its terminator are
    consumed. *)
Theorem record_without_data_dropped (record rest : jsstring) :
  no_CR record ->
  indexOf record terminator = None ->
  endsWith record [LF] = false ->
  Forall (fun line => startsWith line data_prefix = false) (split record LF) ->
  consumeSseEvents (record ++ terminator ++ rest) = consumeSseEvents rest.
Proof.
  intros Hcr Hnone Hend Hlines.
  rewrite consumeSseEvents_record by assumption.
  unfold emitted, collect_data_lines.
  rewrite (collect_no_data_lines _ [] Hlines). simpl.
  destruct (consumeSseEvents rest). reflexivity.
Qed.

Lemma record_without_data_dropped_witness :
  consumeSseEvents
    ((js ": keep-alive" ++ [LF] ++ js "event: ping") ++ terminator
     ++ js "data: x" ++ [LF; LF] ++ js "da") =
  consumeSseEvents (js "data: x" ++ [LF; LF] ++ js "da").
Proof.
  apply record_without_data_dropped.
  - unfold no_CR. repeat constructor; discriminate.
  - vm_compute; reflexivity.
  - vm_compute; reflexivity.
  - vm_compute. repeat constructor.
Defined.

(** ** The accumulator *)

Lemma JSON_parse_throws (data : jsstring) (e : Thrown) :
  JSON_parse data = Throw e -> e = SyntaxError.
Proof.
  unfold JSON_parse. destruct (lex LStart data) as [ts|]; [|congruence].
  destruct (parse_tokens PValue [] ts); congruence.
Qed.

Lemma JSON_parse_DONE : JSON_parse DONE = Throw SyntaxError.
Proof. reflexivity. Qed.

Lemma delta_DONE (engine : Engine) : delta engine DONE = [].
Proof. reflexivity. Qed.

(** One call appends the delta of its payload, whatever the callback. *)
Lemma processSseDataChunk_delta (engine : Engine) (data rt : jsstring)
  (flush : Page -> Page) (p : Page) :
  fst (processSseDataChunk engine data rt flush p) = rt ++ delta engine data.
Proof.
  unfold processSseDataChunk. destruct (jsstring_eqb data DONE) eqn:E.
  - apply jsstring_eqb_eq in E as ->. rewrite delta_DONE, app_nil_r.
    reflexivity.
  - unfold try_parse_chunk, delta, mbind, completion_bind.
    destruct (JSON_parse data) as [jsonData|]; simpl;
      [|rewrite app_nil_r; reflexivity].
    destruct (extract_content engine jsonData) as [content|]; simpl;
      [|rewrite app_nil_r; reflexivity].
    destruct (ToBoolean engine content); simpl;
      [|rewrite app_nil_r; reflexivity].
    destruct (ToString engine content); simpl;
      [|rewrite app_nil_r]; reflexivity.
Qed.

Lemma process_batch_cons (engine : Engine) (el : nat) (data : jsstring)
  (rest : list jsstring) (rt : jsstring) (p : Page) :
  data <> DONE ->
  process_batch engine el (data :: rest) rt p =
  process_batch engine el rest
    (fst (processSseDataChunk engine data rt (flushAssistantText el rt) p))
    (snd (processSseDataChunk engine data rt (flushAssistantText el rt) p)).
Proof.
  intros H. simpl. apply jsstring_eqb_neq in H. rewrite H.
  destruct (processSseDataChunk _ _ _ _ _). reflexivity.
Qed.

(** The accumulator in terms of what the code appends: after a sequence
    of payloads, none of them the sentinel, has been ingested in order, the
    text is the text before followed by what each call appended, in order;
    and every call of [processSseDataChunk] returns a text that extends
    the one it was given. *)
Theorem accumulator_correct (engine : Engine) (el : nat)
  (payloads : list jsstring) (rt : jsstring) (p : Page) :
  Forall (fun data => data <> DONE) payloads ->
  fst (process_batch engine el payloads rt p) =
    rt ++ concat (List.map (delta engine) payloads) /\
  (forall data text flush q,
      text `prefix_of` fst (processSseDataChunk engine data text flush q)).
Proof.
  intros H. split.
  - revert rt p. induction H as [|data rest Hd _ IH]; intros rt p.
    + simpl. rewrite app_nil_r. reflexivity.
    + rewrite process_batch_cons by exact Hd.
      rewrite IH, processSseDataChunk_delta. simpl.
      rewrite app_assoc. reflexivity.
  - intros data text flush q. rewrite processSseDataChunk_delta.
    apply prefix_app_r. reflexivity.
Qed.

Lemma accumulator_correct_witness :
  fst (process_batch example_engine 0
         [jsq "{'response':'Hel'}"; jsq "{not json"; jsq "{'other':1}";
          jsq "{'choices':[{'delta':{'content':'lo'}}]}"] [] empty_page) =
    [] ++ concat (List.map (delta example_engine)
                    [jsq "{'response':'Hel'}"; jsq "{not json";
                     jsq "{'other':1}";
                     jsq "{'choices':[{'delta':{'content':'lo'}}]}"]) /\
  (forall data text flush q,
      text `prefix_of`
        fst (processSseDataChunk example_engine data text flush q)).
Proof.
  apply accumulator_correct.
  repeat constructor; intros H; vm_compute in H; discriminate.
Defined.

(** The deltas of these payloads: the text grows to [Hello]. *)
Example accumulator_Hello :
  concat (List.map (delta example_engine)
            [jsq "{'response':'Hel'}"; jsq "{not json"; jsq "{'other':1}";
             jsq "{'choices':[{'delta':{'content':'lo'}}]}"]) = js "Hello".
Proof. reflexivity. Qed.

(** C3, at the input on which the code leaves the policy: the path
    [choices[0].delta.content] holds [true], which is truthy and no
    string.  The policy gives the empty delta; the call appends [true] to
    the text and runs the callback. *)
Theorem truthy_content_is_appended (engine : Engine) (rt : jsstring)
  (flush : Page -> Page) (p : Page) :
  policy_delta (jsq "{'choices':[{'delta':{'content':true}}]}") = [] /\
  delta engine (jsq "{'choices':[{'delta':{'content':true}}]}") = js "true" /\
  processSseDataChunk engine (jsq "{'choices':[{'delta':{'content':true}}]}")
    rt flush p = (rt ++ js "true", flush p).
Proof. repeat split. Qed.

(** An object at the path is appended as well. *)
Example object_content_is_appended (engine : Engine) :
  delta engine (jsq "{'choices':[{'delta':{'content':{'text':'hi'}}}]}") =
  js "[object Object]".
Proof. reflexivity. Qed.

Lemma optional_get_truthy (engine : Engine) (v x : JsValue) (k : Key) :
  optional_get v k = Normal x -> ToBoolean engine x = true ->
  Get v k = Normal x /\ is_nullish v = false.
Proof.
  unfold optional_get. destruct (is_nullish v) eqn:E.
  - intros [= <-]. discriminate.
  - intros H _. split; [exact H | reflexivity].
Qed.

Lemma optional_get_nullish (v : JsValue) (k : Key) :
  is_nullish v = true -> optional_get v k = Normal JUndefined.
Proof. unfold optional_get. intros ->. reflexivity. Qed.

Lemma optional_get_Normal (v : JsValue) (k : Key) :
  exists x, optional_get v k = Normal x.
Proof.
  unfold optional_get. destruct v; simpl; eauto.
  - destruct k, s; eauto.
  - destruct k, elems; eauto.
  - destruct (lookup_member members (key_name k)); eauto.
Qed.

(** A truthy value found by the optional chain is found again by the
    plain chain of line 251. *)
Lemma choices_0_delta_content_again (engine : Engine) (jsonData x : JsValue) :
  choices_0_delta_content_optional jsonData = Normal x ->
  ToBoolean engine x = true ->
  choices_0_delta_content jsonData = Normal x.
Proof.
  unfold choices_0_delta_content_optional, choices_0_delta_content, mbind,
    completion_bind.
  destruct (Get jsonData K_choices) as [choices|]; [|discriminate].
  destruct (is_nullish choices) eqn:E1.
  { rewrite (optional_get_nullish choices) by exact E1. simpl.
    intros [= <-]. discriminate. }
  destruct (optional_get_Normal choices K_0) as [first Hf].
  pose proof Hf as Hf'. unfold optional_get in Hf'. rewrite E1 in Hf'.
  rewrite Hf, Hf'.
  destruct (is_nullish first) eqn:E2.
  { rewrite (optional_get_nullish first) by exact E2. simpl.
    intros [= <-]. discriminate. }
  destruct (optional_get_Normal first K_delta) as [d Hd].
  pose proof Hd as Hd'. unfold optional_get in Hd'. rewrite E2 in Hd'.
  rewrite Hd, Hd'.
  intros Hc Ht. apply (optional_get_truthy engine) in Hc as [Hc _]; assumption.
Qed.

Lemma choices_branch_policy (engine : Engine) (jsonData : JsValue) :
  (forall x,
      choices_0_delta_content_optional jsonData = Normal x ->
      ToBoolean engine x = true -> exists s, x = JString s) ->
  match
    content ←
      (c ← choices_0_delta_content_optional jsonData;
       if ToBoolean engine c then choices_0_delta_content jsonData
       else Normal (JString []));
    if ToBoolean engine content then ToString engine content else Normal []
  with
  | Normal s => s
  | Throw _ => []
  end =
  match choices_0_delta_content_optional jsonData with
  | Normal (JString (c :: s)) => c :: s
  | _ => []
  end.
Proof.
  intros Hstr. unfold mbind, completion_bind.
  destruct (choices_0_delta_content_optional jsonData) as [x|] eqn:Ec;
    [|reflexivity].
  destruct (ToBoolean engine x) eqn:Et.
  - rewrite (choices_0_delta_content_again engine _ _ Ec Et), Et.
    destruct (Hstr x eq_refl Et) as [s ->].
    destruct s; [discriminate | reflexivity].
  - simpl. destruct x as [| | | |[|c s]| |]; try reflexivity.
    discriminate.
Qed.

(** Where the code follows the policy: on every payload whose value at
    [choices[0].delta.content], when it is truthy, is a string. *)
Lemma delta_follows_policy (engine : Engine) (data : jsstring) :
  (forall jsonData x,
      JSON_parse data = Normal jsonData ->
      choices_0_delta_content_optional jsonData = Normal x ->
      ToBoolean engine x = true -> exists s, x = JString s) ->
  delta engine data = policy_delta data.
Proof.
  intros Hstr. unfold delta, policy_delta.
  destruct (JSON_parse data) as [jsonData|]; [|reflexivity].
  specialize (Hstr jsonData).
  pose proof (choices_branch_policy engine jsonData
                (fun x => Hstr x eq_refl)) as Hb.
  unfold extract_content, mbind, completion_bind in *.
  destruct (Get jsonData K_response) as [response|] eqn:Er.
  - destruct response as [| | | |[|c s]| |]; simpl; try exact Hb.
    reflexivity.
  - destruct jsonData as [| | | |s|elems|members]; try reflexivity;
      simpl in Er; try discriminate.
    destruct (lookup_member members (js "response")); discriminate.
Qed.

(** The two formats, where the code does follow the policy. *)
Lemma delta_response (engine : Engine) (data : jsstring)
  (members : list (jsstring * JsValue)) (c : N) (s : jsstring) :
  JSON_parse data = Normal (JObject members) ->
  lookup_member members (js "response") = Some (JString (c :: s)) ->
  delta engine data = c :: s.
Proof.
  intros Hp Hl. unfold delta, extract_content, mbind, completion_bind.
  rewrite Hp. simpl. change (key_name K_response) with (js "response").
  rewrite Hl. reflexivity.
Qed.

Lemma delta_choices_string (engine : Engine) (data : jsstring)
  (members first dm : list (jsstring * JsValue)) (rest : list JsValue)
  (c : N) (s : jsstring) :
  JSON_parse data = Normal (JObject members) ->
  lookup_member members (js "response") = None ->
  lookup_member members (js "choices") = Some (JArray (JObject first :: rest)) ->
  lookup_member first (js "delta") = Some (JObject dm) ->
  lookup_member dm (js "content") = Some (JString (c :: s)) ->
  delta engine data = c :: s.
Proof.
  intros Hp Hr Hc Hd Hs.
  unfold delta, extract_content, choices_0_delta_content_optional,
    choices_0_delta_content, optional_get, mbind, completion_bind.
  rewrite Hp. simpl.
  change (key_name K_response) with (js "response").
  change (key_name K_choices) with (js "choices").
  rewrite Hr, Hc. simpl.
  change (key_name K_delta) with (js "delta"). rewrite Hd. simpl.
  change (key_name K_content) with (js "content"). rewrite Hs. reflexivity.
Qed.

(** C4. A payload that is not JSON: the call returns the text it was
    given, leaves the page as it is but for the logged failure, so the
    callback has not run, and the payloads behind it in the batch are
    ingested as if it had not been there. *)
Theorem malformed_payload_recovery (engine : Engine) (el : nat)
  (data rt : jsstring) (rest : list jsstring) (flush : Page -> Page)
  (p : Page) (e : Thrown) :
  JSON_parse data = Throw e ->
  fst (processSseDataChunk engine data rt flush p) = rt /\
  snd (processSseDataChunk engine data rt flush p) =
    (if jsstring_eqb data DONE then p
     else console_error (LogParseFailure SyntaxError data) p) /\
  (data <> DONE ->
   process_batch engine el (data :: rest) rt p =
   process_batch engine el rest rt
     (console_error (LogParseFailure SyntaxError data) p)).
Proof.
  intros Hp. pose proof (JSON_parse_throws _ _ Hp) as ->.
  assert (Hcall : forall f,
             processSseDataChunk engine data rt f p =
             (rt, if jsstring_eqb data DONE then p
                  else console_error (LogParseFailure SyntaxError data) p)).
  { intros f. unfold processSseDataChunk, try_parse_chunk, mbind,
      completion_bind.
    destruct (jsstring_eqb data DONE); [reflexivity|].
    rewrite Hp. reflexivity. }
  rewrite Hcall. repeat split.
  intros Hd. rewrite process_batch_cons by exact Hd. rewrite Hcall. simpl.
  apply jsstring_eqb_neq in Hd. rewrite Hd. reflexivity.
Qed.

Lemma malformed_payload_recovery_witness :
  fst (processSseDataChunk example_engine (js "{not json") (js "Hel")
         (flushAssistantText 0 (js "Hel")) empty_page) = js "Hel" /\
  snd (processSseDataChunk example_engine (js "{not json") (js "Hel")
         (flushAssistantText 0 (js "Hel")) empty_page) =
    (if jsstring_eqb (js "{not json") DONE then empty_page
     else console_error (LogParseFailure SyntaxError (js "{not json"))
            empty_page) /\
  (js "{not json" <> DONE ->
   process_batch example_engine 0
     [js "{not json"; jsq "{'response':'lo'}"] (js "Hel") empty_page =
   process_batch example_engine 0 [jsq "{'response':'lo'}"] (js "Hel")
     (console_error (LogParseFailure SyntaxError (js "{not json"))
        empty_page)).
Proof.
  apply (malformed_payload_recovery example_engine 0 (js "{not json")
           (js "Hel") [jsq "{'response':'lo'}"]
           (flushAssistantText 0 (js "Hel")) empty_page SyntaxError).
  reflexivity.
Defined.

(** C5. The sentinel halts the batch: whatever stands behind a [DONE]
    payload in a batch is not ingested; text and page are those reached
    before the sentinel. *)
Theorem sentinel_halts_batch (engine : Engine) (el : nat)
  (before after : list jsstring) (rt : jsstring) (p : Page) :
  process_batch engine el (before ++ DONE :: after) rt p =
  process_batch engine el before rt p.
Proof.
  revert rt p. induction before as [|data before IH]; intros rt p.
  - reflexivity.
  - simpl. destruct (jsstring_eqb data DONE); [reflexivity|].
    destruct (processSseDataChunk _ _ _ _ _) as [rt' p']. apply IH.
Qed.

(** ** The exchange *)

(** C9. With an exchange in flight, or with nothing but white space in the
    input, [sendMessage] returns at once: history, busy flag and every
    other part of the page are as before, and no request went out. *)
Theorem sendMessage_rejected (engine : Engine) (net : FetchOutcome)
  (p : Page) :
  isProcessing p = true \/ trim (userInput_value p) = [] ->
  sendMessage engine net p = p.
Proof.
  intros [H|H]; unfold sendMessage.
  - rewrite H, orb_true_r. reflexivity.
  - rewrite H. reflexivity.
Qed.

Lemma sendMessage_rejected_witness :
  let net :=
    FetchResolves
      {| ok := true; status := 200; statusText := js "OK";
         body := Some {| reads := [jsq "data: {'response':'hi'}"];
                         ending := StreamDone |} |} in
  let busy :=
    set_processing true (set_userInput_value (js "again") empty_page) in
  let blank := set_userInput_value (js "  " ++ [LF; 9]) empty_page in
  sendMessage example_engine net busy = busy /\
  sendMessage example_engine net blank = blank.
Proof.
  split.
  - apply sendMessage_rejected. left. reflexivity.
  - apply sendMessage_rejected. right. reflexivity.
Defined.

(** An exchange that is let through: the request goes out with the
    history, the answer is accumulated and joins the history. *)
Example sendMessage_exchange :
  let net :=
    FetchResolves
      {| ok := true; status := 200; statusText := js "OK";
         body := Some {| reads := [jsq "data: {'respo";
                                   jsq "nse':'Hel'}" ++ [LF; LF]
                                   ++ jsq "data: {'response':'lo'}" ++ [LF; LF]];
                         ending := StreamDone |} |} in
  let p := sendMessage example_engine net
             (set_userInput_value (js " hi ") empty_page) in
  chatHistory p =
    [{| role := js "user"; content := js "hi" |};
     {| role := js "assistant"; content := js "Hello" |}] /\
  requests p = [[{| role := js "user"; content := js "hi" |}]] /\
  isProcessing p = false.
Proof. vm_compute. repeat split. Qed.

(** The flush at the end of the stream surfaces a record that has no
    blank line behind it. *)
Example flush_unterminated_record :
  demux_batches [jsq "data: {'response':'hi'}"] [] =
  [[]; [jsq "{'response':'hi'}"]].
Proof. reflexivity. Qed.

(** C10. A line that is exactly [data:] qualifies: the record made of it
    emits the empty payload, and ingesting the empty payload leaves the
    text as it is and does not run the callback (the empty text is no
    JSON, the failure is logged). *)
Theorem empty_data_line_payload (engine : Engine) (rest rt : jsstring)
  (flush : Page -> Page) (p : Page) :
  consumeSseEvents (js "data:" ++ terminator ++ rest) =
    {| events := [] :: events (consumeSseEvents rest);
       buffer := buffer (consumeSseEvents rest) |} /\
  delta engine [] = [] /\
  processSseDataChunk engine [] rt flush p =
    (rt, console_error (LogParseFailure SyntaxError []) p).
Proof.
  split; [|split; reflexivity].
  rewrite consumeSseEvents_record.
  - reflexivity.
  - unfold no_CR. repeat constructor; discriminate.
  - reflexivity.
  - reflexivity.
Qed.

(** * More of the code *)

(** ** More on strings *)

Lemma indexOf_None_intro (s t : jsstring) :
  ~ occurs t s -> indexOf s t = None.
Proof.
  intros H. destruct (indexOf s t) as [i|] eqn:E; [|reflexivity].
  exfalso. apply H. apply indexOf_Some in E. unfold occurs. eauto.
Qed.

Lemma indexOf_None_iff (s t : jsstring) :
  indexOf s t = None <-> ~ occurs t s.
Proof.
  split; [|apply indexOf_None_intro].
  intros H [pre [post E]]. exact (indexOf_None _ _ H pre post E).
Qed.

Lemma split_not_nil (s : jsstring) (sep : N) : split s sep <> [].
Proof.
  destruct s as [|c s]; simpl; [discriminate|].
  destruct (c =? sep); [discriminate|].
  destruct (split s sep); discriminate.
Qed.

Lemma split_cons_other (c : N) (s : jsstring) (sep : N) :
  c <> sep ->
  exists l ls, split s sep = l :: ls /\ split (c :: s) sep = (c :: l) :: ls.
Proof.
  intros H. simpl. apply N.eqb_neq in H. rewrite H.
  destruct (split s sep) as [|l ls] eqn:E.
  - exfalso. exact (split_not_nil _ _ E).
  - eauto.
Qed.

(** Splitting at a separator splits the list of lines. *)
Lemma split_app_sep (a b : jsstring) (sep : N) :
  split (a ++ sep :: b) sep = split a sep ++ split b sep.
Proof.
  induction a as [|c a IH]; simpl.
  - rewrite N.eqb_refl. reflexivity.
  - destruct (c =? sep); [rewrite IH; reflexivity|].
    rewrite IH. destruct (split a sep) as [|l ls] eqn:E.
    + exfalso. exact (split_not_nil _ _ E).
    + reflexivity.
Qed.

Lemma split_no_sep (l : jsstring) (sep : N) :
  Forall (fun c => c <> sep) l -> split l sep = [l].
Proof.
  induction 1 as [|c l Hc _ IH]; simpl; [reflexivity|].
  apply N.eqb_neq in Hc. rewrite Hc, IH. reflexivity.
Qed.

(** [split] undoes [join] on lines that do not hold the separator. *)
Lemma split_join (lines : list jsstring) (sep : N) :
  lines <> [] ->
  Forall (Forall (fun c => c <> sep)) lines ->
  split (join lines [sep]) sep = lines.
Proof.
  intros Hne H. induction H as [|l lines Hl Hls IH]; [contradiction|].
  clear Hne. destruct lines as [|l2 lines].
  - simpl. apply split_no_sep. exact Hl.
  - change (join (l :: l2 :: lines) [sep])
      with (l ++ sep :: join (l2 :: lines) [sep]).
    rewrite split_app_sep, (split_no_sep l) by exact Hl.
    rewrite IH by discriminate. reflexivity.
Qed.

(** [join] undoes [split]. *)
Lemma join_split (s : jsstring) (sep : N) : join (split s sep) [sep] = s.
Proof.
  induction s as [|c s IH]; simpl; [reflexivity|].
  destruct (c =? sep) eqn:E.
  - apply N.eqb_eq in E as ->.
    destruct (split s sep) as [|l ls] eqn:Es.
    + exfalso. exact (split_not_nil _ _ Es).
    + change (join ([] :: l :: ls) [sep]) with (sep :: join (l :: ls) [sep]).
      rewrite IH. reflexivity.
  - destruct (split s sep) as [|l ls] eqn:Es.
    + exfalso. exact (split_not_nil _ _ Es).
    + destruct ls as [|l2 ls].
      * simpl in *. rewrite IH. reflexivity.
      * change (join ((c :: l) :: l2 :: ls) [sep])
          with (c :: join (l :: l2 :: ls) [sep]).
        rewrite IH. reflexivity.
Qed.

Lemma endsWith_inv (s : jsstring) (c : N) :
  endsWith s [c] = true -> exists pre, s = pre ++ [c].
Proof.
  unfold endsWith. intros H. apply startsWith_spec in H as [r H].
  exists (rev r). apply (f_equal (@rev N)) in H.
  rewrite rev_involutive in H. exact H.
Qed.

Lemma split_first_prefix (s : jsstring) (sep : N) (l : jsstring)
  (ls : list jsstring) :
  split s sep = l :: ls -> exists post, s = l ++ post.
Proof.
  revert l ls. induction s as [|d s IH]; intros l ls; simpl.
  - intros [= <- <-]. exists []. reflexivity.
  - destruct (d =? sep).
    + intros [= <- <-]. exists (d :: s). reflexivity.
    + destruct (split s sep) as [|l' ls'] eqn:E.
      * intros [= <- <-]. exists s. reflexivity.
      * intros [= <- <-]. destruct (IH l' ls' eq_refl) as [post ->].
        exists post. reflexivity.
Qed.

(** A line of a text is a part of the text. *)
Lemma split_line_occurs (s : jsstring) (sep : N) (line : jsstring) :
  In line (split s sep) -> occurs line s.
Proof.
  revert line. induction s as [|c s IH]; intros line; simpl.
  - intros [<-|[]]. exists [], []. reflexivity.
  - destruct (c =? sep).
    + intros [<-|H].
      * exists [], (c :: s). reflexivity.
      * destruct (IH _ H) as [pre [post ->]]. exists (c :: pre), post.
        reflexivity.
    + destruct (split s sep) as [|l ls] eqn:E.
      * exfalso. exact (split_not_nil _ _ E).
      * intros [<-|H].
        -- destruct (split_first_prefix _ _ _ _ E) as [post ->].
           exists [], post. reflexivity.
        -- destruct (IH line (or_intror H)) as [pre [post ->]].
           exists (c :: pre), post. reflexivity.
Qed.

(** ** Framed records *)

Lemma data_line_unfold (l : jsstring) :
  data_field ++ l = 100 :: 97 :: 116 :: 97 :: 58 :: 32 :: l.
Proof. reflexivity. Qed.

Lemma join_Forall (P : N -> Prop) (lines : list jsstring) (sep : jsstring) :
  Forall (Forall P) lines -> Forall P sep -> Forall P (join lines sep).
Proof.
  intros H Hs. induction H as [|l lines Hl _ IH]; [constructor|].
  destruct lines as [|l2 lines]; [exact Hl|].
  change (join (l :: l2 :: lines) sep) with (l ++ sep ++ join (l2 :: lines) sep).
  rewrite !Forall_app. auto.
Qed.

Lemma plain_line_no_LF (l : jsstring) :
  plain_line l -> Forall (fun c => c <> LF) (data_field ++ l).
Proof.
  intros [H _]. rewrite data_line_unfold.
  repeat (constructor; [discriminate|]).
  eapply Forall_impl; [exact H|]. intros c [Hc _]. exact Hc.
Qed.

Lemma plain_line_no_CR (l : jsstring) :
  plain_line l -> no_CR (data_field ++ l).
Proof.
  intros [H _]. unfold no_CR. rewrite data_line_unfold.
  repeat (constructor; [discriminate|]).
  eapply Forall_impl; [exact H|]. intros c [_ Hc]. exact Hc.
Qed.

(** The lines of a framed record are its [data: ] lines. *)
Lemma data_record_lines (lines : list jsstring) :
  lines <> [] -> Forall plain_line lines ->
  split (data_record lines) LF = List.map (fun l => data_field ++ l) lines.
Proof.
  intros Hne H. unfold data_record. apply split_join.
  - destruct lines; [contradiction | discriminate].
  - induction H as [|l lines Hl _ IH]; simpl; constructor.
    + apply plain_line_no_LF, Hl.
    + destruct lines; [constructor | apply IH; discriminate].
Qed.

Lemma data_record_no_empty_line (lines : list jsstring) :
  ~ In [] (List.map (fun l => data_field ++ l) lines).
Proof.
  intros H. apply in_map_iff in H as [l [H _]].
  rewrite data_line_unfold in H. discriminate.
Qed.

Lemma data_record_no_terminator (lines : list jsstring) :
  lines <> [] -> Forall plain_line lines ->
  indexOf (data_record lines) terminator = None.
Proof.
  intros Hne H. apply indexOf_None_intro. intros [pre [post E]].
  pose proof (data_record_lines lines Hne H) as Hl. rewrite E in Hl.
  change (pre ++ terminator ++ post) with (pre ++ LF :: (LF :: post)) in Hl.
  rewrite split_app_sep in Hl.
  apply (data_record_no_empty_line lines). rewrite <- Hl.
  apply in_or_app. right. simpl. left. reflexivity.
Qed.

Lemma data_record_end (lines : list jsstring) :
  lines <> [] -> Forall plain_line lines ->
  endsWith (data_record lines) [LF] = false.
Proof.
  intros Hne H. destruct (endsWith _ _) eqn:E; [|reflexivity]. exfalso.
  apply endsWith_inv in E as [pre E].
  pose proof (data_record_lines lines Hne H) as Hl. rewrite E in Hl.
  rewrite split_app_sep in Hl.
  apply (data_record_no_empty_line lines). rewrite <- Hl.
  apply in_or_app. right. simpl. left. reflexivity.
Qed.

Lemma data_record_no_CR (lines : list jsstring) :
  Forall plain_line lines -> no_CR (data_record lines).
Proof.
  intros H. unfold no_CR, data_record. apply join_Forall.
  - induction H as [|l lines Hl _ IH]; simpl; constructor; [|exact IH].
    apply plain_line_no_CR, Hl.
  - repeat constructor. discriminate.
Qed.

Lemma push_data_record_line (acc : list jsstring) (l : jsstring) :
  plain_line l -> push_data_line acc (data_field ++ l) = acc ++ [l].
Proof.
  intros [_ Hl]. unfold push_data_line. rewrite data_line_unfold. simpl.
  rewrite Hl. reflexivity.
Qed.

Lemma collect_data_record (lines acc : list jsstring) :
  Forall plain_line lines ->
  fold_left push_data_line (List.map (fun l => data_field ++ l) lines) acc =
  acc ++ lines.
Proof.
  intros H. revert acc. induction H as [|l lines Hl _ IH]; intros acc.
  - simpl. rewrite app_nil_r. reflexivity.
  - cbn [List.map fold_left]. rewrite push_data_record_line by exact Hl.
    rewrite IH, <- app_assoc. reflexivity.
Qed.

Lemma emitted_data_record (lines : list jsstring) :
  lines <> [] -> Forall plain_line lines ->
  emitted (data_record lines) = [join lines [LF]].
Proof.
  intros Hne H. unfold emitted, collect_data_lines.
  rewrite data_record_lines, collect_data_record by assumption.
  simpl. destruct lines; [contradiction | reflexivity].
Qed.

Lemma consumeSseEvents_framed (records : list (list jsstring))
  (rest : jsstring) :
  Forall (fun lines => lines <> [] /\ Forall plain_line lines) records ->
  consumeSseEvents (framed records ++ rest) =
  {| events := List.map (fun lines => join lines [LF]) records
               ++ events (consumeSseEvents rest);
     buffer := buffer (consumeSseEvents rest) |}.
Proof.
  intros H. induction H as [|lines records [Hne Hl] _ IH]; simpl.
  - destruct (consumeSseEvents rest). reflexivity.
  - unfold framed in *. simpl. rewrite <- !app_assoc.
    rewrite consumeSseEvents_record.
    + rewrite IH, emitted_data_record by assumption. reflexivity.
    + apply data_record_no_CR, Hl.
    + apply data_record_no_terminator; assumption.
    + apply data_record_end; assumption.
Qed.

(** X1. Round trip of the framing: a text of records, each made of
    [data: ] lines for the lines of a payload and closed by a blank line,
    is decoded into exactly these payloads, in order; what follows the
    records is decoded as if it stood alone. *)
Theorem framed_round_trip (records : list (list jsstring)) (rest : jsstring) :
  Forall (fun lines => lines <> [] /\ Forall plain_line lines) records ->
  consumeSseEvents (framed records ++ rest) =
  {| events := List.map (fun lines => join lines [LF]) records
               ++ events (consumeSseEvents rest);
     buffer := buffer (consumeSseEvents rest) |}.
Proof. apply consumeSseEvents_framed. Qed.

Lemma framed_round_trip_witness :
  consumeSseEvents
    (framed [[jsq "{'response':'Hel'}"]; [js "first"; []; js "third"]]
     ++ js "data: par") =
  {| events := List.map (fun lines => join lines [LF])
                 [[jsq "{'response':'Hel'}"]; [js "first"; []; js "third"]]
               ++ events (consumeSseEvents (js "data: par"));
     buffer := buffer (consumeSseEvents (js "data: par")) |}.
Proof.
  apply framed_round_trip.
  repeat constructor; try discriminate.
Defined.

(** ** What a pass leaves *)

Lemma consumeSseEvents_settled (b : jsstring) :
  settled (buffer (consumeSseEvents b)).
Proof.
  unfold settled. unfold consumeSseEvents at 1.
  rewrite consumeSseEvents_buffer_no_CR.
  apply consume_loop_no_terminator.
  unfold consumeSseEvents. apply consume_loop_exhaustive. lia.
Qed.

(** X2. A pass over the buffer that a pass returned extracts nothing and
    returns the buffer as it is. *)
Theorem consumeSseEvents_idempotent (b : jsstring) :
  consumeSseEvents (buffer (consumeSseEvents b)) =
  {| events := []; buffer := buffer (consumeSseEvents b) |}.
Proof. apply consumeSseEvents_settled. Qed.

Lemma consume_loop_consumed (fuel : nat) (s : jsstring) (acc : list jsstring) :
  exists consumed,
    s = consumed ++ buffer (consume_loop fuel s acc) /\
    (2 * length (events (consume_loop fuel s acc))
     <= 2 * length acc + length consumed)%nat.
Proof.
  revert s acc. induction fuel as [|fuel IH]; intros s acc.
  - exists []. simpl. split; [reflexivity | lia].
  - rewrite consume_loop_S. destruct (indexOf s terminator) as [i|] eqn:E.
    + destruct (IH (skipn (i + 2) s) (acc ++ emitted (firstn i s)))
        as [consumed [Hs Hn]].
      exists (firstn (i + 2) s ++ consumed). split.
      * rewrite <- app_assoc, <- Hs, firstn_skipn. reflexivity.
      * apply indexOf_bound in E. simpl in E.
        rewrite !length_app, length_firstn in *.
        assert (length (emitted (firstn i s)) <= 1)%nat.
        { unfold emitted. destruct (collect_data_lines _); simpl; lia. }
        lia.
    + exists []. simpl. split; [reflexivity | lia].
Qed.

(** X3. A pass consumes a front part of the normalized input and returns
    the rest untouched; every payload it emits has cost at least the two
    line feeds of a terminator. *)
Theorem consumeSseEvents_consumes_prefix (b : jsstring) :
  exists consumed,
    replace_CR b = consumed ++ buffer (consumeSseEvents b) /\
    (2 * length (events (consumeSseEvents b)) <= length consumed)%nat.
Proof.
  unfold consumeSseEvents.
  destruct (consume_loop_consumed (length (replace_CR b)) (replace_CR b) [])
    as [consumed [H1 H2]].
  exists consumed. split; [exact H1 | simpl in H2; lia].
Qed.

(** ** What payloads are made of *)

Lemma split_Forall (P : N -> Prop) (s : jsstring) (sep : N) :
  Forall P s -> Forall (Forall P) (split s sep).
Proof.
  induction 1 as [|c s Hc _ IH]; simpl; [repeat constructor|].
  destruct (c =? sep); [constructor; [constructor | exact IH]|].
  destruct (split s sep) as [|l ls]; [repeat constructor; exact Hc|].
  inversion IH; subst. constructor; [constructor|]; assumption.
Qed.

Lemma trimStart_Forall (P : N -> Prop) (s : jsstring) :
  Forall P s -> Forall P (trimStart s).
Proof.
  induction 1 as [|c s Hc Hs IH]; simpl; [constructor|].
  destruct (isWhiteSpace c); [exact IH | constructor; assumption].
Qed.

Lemma collect_data_lines_Forall (P : N -> Prop) (lines acc : list jsstring) :
  Forall (Forall P) lines -> Forall (Forall P) acc ->
  Forall (Forall P) (fold_left push_data_line lines acc).
Proof.
  intros H. revert acc. induction H as [|l lines Hl _ IH]; intros acc Hacc.
  - exact Hacc.
  - simpl. apply IH. unfold push_data_line.
    destruct (startsWith l data_prefix); [|exact Hacc].
    apply Forall_app. split; [exact Hacc|]. constructor; [|constructor].
    apply trimStart_Forall. unfold slice_from. apply Forall_drop. exact Hl.
Qed.

Lemma emitted_Forall (P : N -> Prop) (r : jsstring) :
  P LF -> Forall P r -> Forall (Forall P) (emitted r).
Proof.
  intros HLF Hr. unfold emitted, collect_data_lines.
  pose proof (collect_data_lines_Forall P (split r LF) []
                (split_Forall P r LF Hr) (List.Forall_nil _)) as H.
  destruct (fold_left push_data_line (split r LF) []) as [|d ds];
    constructor; [|constructor].
  apply join_Forall; [exact H | repeat constructor; exact HLF].
Qed.

Lemma consume_loop_Forall (P : N -> Prop) (fuel : nat) (s : jsstring)
  (acc : list jsstring) :
  P LF -> Forall P s -> Forall (Forall P) acc ->
  Forall (Forall P) (events (consume_loop fuel s acc)).
Proof.
  intros HLF. revert s acc. induction fuel as [|fuel IH]; intros s acc Hs Hacc.
  - exact Hacc.
  - rewrite consume_loop_S. destruct (indexOf s terminator) as [i|]; [|exact Hacc].
    apply IH; [apply Forall_drop, Hs|].
    apply Forall_app. split; [exact Hacc|].
    apply emitted_Forall; [exact HLF | apply Forall_take, Hs].
Qed.

Lemma replace_CR_Forall (P : N -> Prop) (b : jsstring) :
  Forall P b -> Forall P (replace_CR b).
Proof.
  unfold replace_CR. induction 1 as [|c s Hc _ IH]; simpl; [constructor|].
  destruct (negb (c =? CR)); [constructor; assumption | exact IH].
Qed.

(** X4. No carriage return reaches a payload or the returned buffer. *)
Theorem payloads_without_CR (b : jsstring) :
  Forall no_CR (events (consumeSseEvents b)) /\
  no_CR (buffer (consumeSseEvents b)).
Proof.
  unfold consumeSseEvents. split.
  - apply consume_loop_Forall; [discriminate | apply replace_CR_no_CR | constructor].
  - apply consume_loop_no_CR, replace_CR_no_CR.
Qed.

(** X5. A payload holds nothing but code units of the input and the line
    feeds that join its lines: what holds of the line feed and of every
    code unit of the input holds of every code unit of every payload. *)
Theorem payloads_from_input (P : N -> Prop) (b : jsstring) :
  P LF -> Forall P b -> Forall (Forall P) (events (consumeSseEvents b)).
Proof.
  intros HLF Hb. unfold consumeSseEvents.
  apply consume_loop_Forall; [exact HLF | | constructor].
  apply replace_CR_Forall, Hb.
Qed.

Lemma payloads_from_input_witness :
  Forall (Forall (fun c => c < 128))
    (events (consumeSseEvents
               (js "data: one" ++ [LF] ++ js "data:two" ++ [CR; LF; LF]
                ++ js "data: x"))).
Proof.
  apply payloads_from_input.
  - reflexivity.
  - repeat constructor.
Defined.

(** ** Text without a [data:] field *)

Lemma occurs_take (t s : jsstring) (i : nat) :
  occurs t (firstn i s) -> occurs t s.
Proof.
  intros [pre [post H]]. exists pre, (post ++ skipn i s).
  rewrite <- (firstn_skipn i s) at 1. rewrite H, <- !app_assoc. reflexivity.
Qed.

Lemma occurs_drop (t s : jsstring) (i : nat) :
  occurs t (skipn i s) -> occurs t s.
Proof.
  intros [pre [post H]]. exists (firstn i s ++ pre), post.
  rewrite <- (firstn_skipn i s) at 1. rewrite H, <- !app_assoc. reflexivity.
Qed.

Lemma emitted_without_data (r : jsstring) :
  ~ occurs data_prefix r -> emitted r = [].
Proof.
  intros H. unfold emitted, collect_data_lines.
  rewrite collect_no_data_lines; [reflexivity|].
  apply List.Forall_forall. intros line Hin.
  destruct (startsWith line data_prefix) eqn:E; [|reflexivity].
  exfalso. apply H. apply startsWith_spec in E as [x ->].
  apply split_line_occurs in Hin as [pre [post ->]].
  exists pre, (x ++ post). rewrite <- !app_assoc. reflexivity.
Qed.

Lemma consume_loop_without_data (fuel : nat) (s : jsstring)
  (acc : list jsstring) :
  ~ occurs data_prefix s -> events (consume_loop fuel s acc) = acc.
Proof.
  revert s acc. induction fuel as [|fuel IH]; intros s acc H; [reflexivity|].
  rewrite consume_loop_S. destruct (indexOf s terminator) as [i|]; [|reflexivity].
  rewrite IH.
  - rewrite emitted_without_data; [apply app_nil_r|].
    intros Ho. apply H. exact (occurs_take _ _ _ Ho).
  - intros Ho. apply H. exact (occurs_drop _ _ _ Ho).
Qed.

(** X6. A payload comes from a [data:] field only: when the text, once its
    carriage returns are gone, holds [data:] nowhere, no payload is
    emitted, however many records it holds. *)
Theorem no_data_field_no_payload (b : jsstring) :
  ~ occurs data_prefix (replace_CR b) -> events (consumeSseEvents b) = [].
Proof. intros H. unfold consumeSseEvents. apply consume_loop_without_data, H. Qed.

Lemma no_data_field_no_payload_witness :
  events (consumeSseEvents
            (js ": ping" ++ [CR; LF; CR; LF] ++ js "event: da" ++ [CR]
             ++ js "ta" ++ [LF; LF] ++ js "dat")) = [].
Proof.
  apply no_data_field_no_payload.
  apply indexOf_None_iff. vm_compute. reflexivity.
Defined.

(** ** The read loop and the accumulator *)

Lemma settled_nil : settled [].
Proof. reflexivity. Qed.

Lemma read_loop_empty_chunk (engine : Engine) (el : nat)
  (chunks1 chunks2 : list jsstring) (ending : StreamEnd) (b rt : jsstring)
  (p : Page) :
  settled b ->
  read_loop engine el (chunks1 ++ [] :: chunks2) ending b rt p =
  read_loop engine el (chunks1 ++ chunks2) ending b rt p.
Proof.
  revert b rt p. induction chunks1 as [|v chunks1 IH]; intros b rt p Hb.
  - simpl. rewrite app_nil_r, Hb. reflexivity.
  - simpl. pose proof (consumeSseEvents_settled (b ++ v)) as Hs.
    destruct (consumeSseEvents (b ++ v)) as [batch b']. simpl in Hs.
    destruct (process_batch engine el batch rt p) as [rt' p'].
    apply IH, Hs.
Qed.

(** X7. A read that brings no text changes nothing: the exchange ends as
    if the read had not happened, wherever in the stream it falls. *)
Theorem empty_chunk_is_noop (engine : Engine) (el : nat)
  (chunks1 chunks2 : list jsstring) (ending : StreamEnd) (rt : jsstring)
  (p : Page) :
  read_loop engine el (chunks1 ++ [] :: chunks2) ending [] rt p =
  read_loop engine el (chunks1 ++ chunks2) ending [] rt p.
Proof. apply read_loop_empty_chunk, settled_nil. Qed.

Lemma chunk_cases (engine : Engine) (data rt : jsstring)
  (flush : Page -> Page) (p : Page) :
  processSseDataChunk engine data rt flush p = (rt, p) \/
  processSseDataChunk engine data rt flush p =
    (rt ++ delta engine data, flush p) \/
  exists e,
    processSseDataChunk engine data rt flush p =
    (rt, console_error (LogParseFailure e data) p).
Proof.
  unfold processSseDataChunk. destruct (jsstring_eqb data DONE); [auto|].
  unfold try_parse_chunk, delta, mbind, completion_bind.
  destruct (JSON_parse data) as [jsonData|e]; [|eauto].
  destruct (extract_content engine jsonData) as [content|e]; [|eauto].
  destruct (ToBoolean engine content); [|auto].
  destruct (ToString engine content) as [s|e]; simpl; eauto.
Qed.

(** X8. The three ways a call of [processSseDataChunk] ends: nothing
    happens; or the text grows by the delta and the callback has run, on
    the page as it came in; or the failure is logged.  The text changes in
    the second case only, and the callback runs there only. *)
Theorem chunk_outcomes (engine : Engine) (data rt : jsstring)
  (flush : Page -> Page) (p : Page) :
  processSseDataChunk engine data rt flush p = (rt, p) \/
  processSseDataChunk engine data rt flush p =
    (rt ++ delta engine data, flush p) \/
  exists e,
    processSseDataChunk engine data rt flush p =
    (rt, console_error (LogParseFailure e data) p).
Proof. apply chunk_cases. Qed.

(** When the text grows, the callback has run. *)
Lemma chunk_grows (engine : Engine) (data rt : jsstring)
  (flush : Page -> Page) (p : Page) :
  delta engine data <> [] ->
  processSseDataChunk engine data rt flush p =
  (rt ++ delta engine data, flush p).
Proof.
  intros Hd.
  pose proof (processSseDataChunk_delta engine data rt flush p) as Hfst.
  destruct (chunk_cases engine data rt flush p) as [H|[H|[e H]]].
  - rewrite H in Hfst. simpl in Hfst.
    apply (f_equal (@length N)) in Hfst. rewrite length_app in Hfst.
    destruct (delta engine data); [contradiction | simpl in Hfst; lia].
  - exact H.
  - rewrite H in Hfst. simpl in Hfst.
    apply (f_equal (@length N)) in Hfst. rewrite length_app in Hfst.
    destruct (delta engine data); [contradiction | simpl in Hfst; lia].
Qed.

(** ** What the page shows while the text grows *)

Lemma shown_flush (el : nat) (outer : jsstring) (p : Page) :
  (el < length (chatMessages p))%nat ->
  shown el (flushAssistantText el outer p) = Some outer.
Proof.
  intros H. unfold shown, flushAssistantText. simpl.
  destruct (lookup_lt_is_Some_2 (chatMessages p) el H) as [x Hx].
  rewrite list_lookup_alter, Hx. case_decide; [reflexivity | contradiction].
Qed.

Lemma flush_length (el : nat) (outer : jsstring) (p : Page) :
  length (chatMessages (flushAssistantText el outer p)) =
  length (chatMessages p).
Proof. unfold flushAssistantText. simpl. apply length_alter. Qed.

Lemma removelast_cons2 {A} (x y : A) (l : list A) :
  removelast (x :: y :: l) = x :: removelast (y :: l).
Proof. reflexivity. Qed.

Lemma process_batch_shown (engine : Engine) (el : nat)
  (payloads : list jsstring) (rt : jsstring) (p : Page) :
  Forall (fun data => data <> DONE /\ delta engine data <> []) payloads ->
  payloads <> [] ->
  (el < length (chatMessages p))%nat ->
  shown el (snd (process_batch engine el payloads rt p)) =
    Some (rt ++ concat (List.map (delta engine) (removelast payloads))) /\
  fst (process_batch engine el payloads rt p) =
    rt ++ concat (List.map (delta engine) payloads).
Proof.
  intros H. revert rt p.
  induction H as [|data rest [Hd Hg] Hrest IH]; intros rt p Hne Hel;
    [contradiction|].
  rewrite process_batch_cons by exact Hd.
  rewrite (chunk_grows engine data rt _ p Hg). simpl fst. simpl snd.
  destruct rest as [|data2 rest].
  - simpl. rewrite !app_nil_r. split; [|reflexivity].
    apply shown_flush, Hel.
  - destruct (IH (rt ++ delta engine data) (flushAssistantText el rt p))
      as [H1 H2]; [discriminate | rewrite flush_length; exact Hel |].
    rewrite H1, H2, removelast_cons2. simpl. rewrite !app_assoc.
    split; reflexivity.
Qed.

(** X9. The page is one delta behind the text.  The callback sets the
    element to the text of [sendMessage], which is assigned only when
    [processSseDataChunk] has returned: after a batch of payloads that all
    bring text, the element shows the deltas of all payloads but the last,
    while the text holds them all. *)
Theorem display_is_one_delta_behind (engine : Engine) (el : nat)
  (payloads : list jsstring) (rt : jsstring) (p : Page) :
  Forall (fun data => data <> DONE /\ delta engine data <> []) payloads ->
  payloads <> [] ->
  (el < length (chatMessages p))%nat ->
  shown el (snd (process_batch engine el payloads rt p)) =
    Some (rt ++ concat (List.map (delta engine) (removelast payloads))) /\
  fst (process_batch engine el payloads rt p) =
    rt ++ concat (List.map (delta engine) payloads).
Proof. apply process_batch_shown. Qed.

Lemma display_is_one_delta_behind_witness :
  let payloads :=
    [jsq "{'response':'Hel'}"; jsq "{'choices':[{'delta':{'content':'lo'}}]}"] in
  let p := snd (createAssistantMessageElement empty_page) in
  shown 0 (snd (process_batch example_engine 0 payloads [] p)) =
    Some ([] ++ concat (List.map (delta example_engine) (removelast payloads))) /\
  fst (process_batch example_engine 0 payloads [] p) =
    [] ++ concat (List.map (delta example_engine) payloads).
Proof.
  apply display_is_one_delta_behind.
  - repeat constructor; intros H; vm_compute in H; discriminate.
  - discriminate.
  - simpl. lia.
Defined.

(** The two sides of the lag, evaluated. *)
Example display_shows_Hel_text_is_Hello :
  let payloads :=
    [jsq "{'response':'Hel'}"; jsq "{'choices':[{'delta':{'content':'lo'}}]}"] in
  let p := snd (createAssistantMessageElement empty_page) in
  shown 0 (snd (process_batch example_engine 0 payloads [] p)) = Some (js "Hel") /\
  fst (process_batch example_engine 0 payloads [] p) = js "Hello".
Proof. split; reflexivity. Qed.

(** ** The sentinel *)

Lemma before_DONE_no_DONE (batch : list jsstring) :
  Forall (fun data => data <> DONE) (before_DONE batch).
Proof.
  induction batch as [|data rest IH]; simpl; [constructor|].
  destruct (jsstring_eqb data DONE) eqn:E; [constructor|].
  constructor; [apply jsstring_eqb_neq, E | exact IH].
Qed.

Lemma before_DONE_id (batch : list jsstring) :
  Forall (fun data => data <> DONE) batch -> before_DONE batch = batch.
Proof.
  induction 1 as [|data rest Hd _ IH]; simpl; [reflexivity|].
  apply jsstring_eqb_neq in Hd. rewrite Hd, IH. reflexivity.
Qed.

Lemma process_batch_before_DONE (engine : Engine) (el : nat)
  (batch : list jsstring) (rt : jsstring) (p : Page) :
  process_batch engine el batch rt p =
  process_batch engine el (before_DONE batch) rt p.
Proof.
  revert rt p. induction batch as [|data rest IH]; intros rt p; simpl;
    [reflexivity|].
  destruct (jsstring_eqb data DONE) eqn:E; [reflexivity|].
  simpl. rewrite E. destruct (processSseDataChunk _ _ _ _ _). apply IH.
Qed.

Lemma process_batch_text (engine : Engine) (el : nat)
  (batch : list jsstring) (rt : jsstring) (p : Page) :
  fst (process_batch engine el batch rt p) =
  rt ++ concat (List.map (delta engine) (before_DONE batch)).
Proof.
  rewrite process_batch_before_DONE.
  pose proof (before_DONE_no_DONE batch) as H.
  revert rt p. induction H as [|data rest Hd _ IH]; intros rt p.
  - simpl. rewrite app_nil_r. reflexivity.
  - rewrite process_batch_cons by exact Hd.
    rewrite IH, processSseDataChunk_delta. simpl. rewrite app_assoc.
    reflexivity.
Qed.

Lemma ingest_batches_text (engine : Engine) (el : nat)
  (batches : list (list jsstring)) (rt : jsstring) (p : Page) :
  fst (ingest_batches engine el batches rt p) =
  rt ++ concat (List.map
                  (fun batch =>
                     concat (List.map (delta engine) (before_DONE batch)))
                  batches).
Proof.
  unfold ingest_batches. revert rt p.
  induction batches as [|batch batches IH]; intros rt p; simpl.
  - rewrite app_nil_r. reflexivity.
  - destruct (process_batch engine el batch rt p) as [rt' p'] eqn:E.
    simpl. rewrite IH.
    pose proof (process_batch_text engine el batch rt p) as Ht.
    rewrite E in Ht. simpl in Ht. rewrite Ht, <- app_assoc. reflexivity.
Qed.

(** X10. The reach of the sentinel is the batch of its read.  The text an
    exchange ends with is made, read after read, of the deltas of the
    payloads that stand before the first sentinel of their batch: a
    sentinel does not stop the reads that follow. *)
Theorem sentinel_reach_is_the_batch (engine : Engine) (el : nat)
  (chunks : list jsstring) (b rt : jsstring) (p : Page) :
  exists q,
    read_loop engine el chunks StreamDone b rt p =
    Completed
      (rt ++ concat (List.map
                       (fun batch =>
                          concat (List.map (delta engine) (before_DONE batch)))
                       (demux_batches chunks b)), q).
Proof.
  rewrite read_loop_batches.
  exists (snd (ingest_batches engine el (demux_batches chunks b) rt p)).
  rewrite <- (ingest_batches_text engine el _ rt p).
  destruct (ingest_batches _ _ _ _ _). reflexivity.
Qed.

(** A sentinel and a record behind it: read together, the record is lost;
    read one after the other, it is ingested. *)
Example sentinel_then_record :
  let done := js "data: [DONE]" ++ [LF; LF] in
  let more := jsq "data: {'response':'more'}" ++ [LF; LF] in
  (exists q, read_loop example_engine 0 [done ++ more] StreamDone [] []
               empty_page = Completed ([], q)) /\
  (exists q, read_loop example_engine 0 [done; more] StreamDone [] []
               empty_page = Completed (js "more", q)).
Proof. split; eexists; vm_compute; reflexivity. Qed.

Lemma concat_map_concat {A B} (f : A -> list B) (ls : list (list A)) :
  concat (List.map (fun l => concat (List.map f l)) ls) =
  concat (List.map f (concat ls)).
Proof.
  induction ls as [|l ls IH]; simpl; [reflexivity|].
  rewrite List.map_app, concat_app, IH. reflexivity.
Qed.

Lemma before_DONE_batches (batches : list (list jsstring)) :
  Forall (fun data => data <> DONE) (concat batches) ->
  List.map before_DONE batches = batches.
Proof.
  induction batches as [|batch batches IH]; simpl; [reflexivity|].
  intros H. apply Forall_app in H as [H1 H2].
  rewrite before_DONE_id, IH by assumption. reflexivity.
Qed.

(** X11. Without a sentinel the text does not depend on how the stream is
    cut into reads: it is made of the deltas of the payloads of the whole
    text, the flush included. *)
Theorem text_is_split_invariant (engine : Engine) (el : nat)
  (chunks : list jsstring) (rt : jsstring) (p : Page) :
  Forall (fun data => data <> DONE)
    (events (consumeSseEvents (concat chunks ++ terminator))) ->
  exists q,
    read_loop engine el chunks StreamDone [] rt p =
    Completed
      (rt ++ concat (List.map (delta engine)
                       (events (consumeSseEvents
                                  (concat chunks ++ terminator)))), q).
Proof.
  intros H. rewrite read_loop_batches.
  exists (snd (ingest_batches engine el (demux_batches chunks []) rt p)).
  pose proof (ingest_batches_text engine el (demux_batches chunks []) rt p) as Ht.
  pose proof (demux_batches_concat chunks []) as Hc. simpl in Hc.
  rewrite <- Hc in H |- *.
  assert (Hg : fst (ingest_batches engine el (demux_batches chunks []) rt p) =
               rt ++ concat (List.map (delta engine)
                               (concat (demux_batches chunks [])))).
  { rewrite Ht. f_equal.
    transitivity
      (concat (List.map (fun l => concat (List.map (delta engine) l))
                 (demux_batches chunks []))).
    - f_equal. rewrite <- (before_DONE_batches _ H) at 2.
      rewrite List.map_map. reflexivity.
    - apply concat_map_concat. }
  rewrite <- Hg. destruct (ingest_batches _ _ _ _ _). reflexivity.
Qed.

Lemma text_is_split_invariant_witness :
  let chunks :=
    [js "da"; jsq "ta: {'respo"; jsq "nse':'Hel'}" ++ [LF];
     [LF] ++ jsq "data: {'response':'lo'}"] in
  exists q,
    read_loop example_engine 0 chunks StreamDone [] [] empty_page =
    Completed
      ([] ++ concat (List.map (delta example_engine)
                       (events (consumeSseEvents
                                  (concat chunks ++ terminator)))), q).
Proof.
  intros chunks.
  apply (text_is_split_invariant example_engine 0 chunks [] empty_page).
  vm_compute. repeat constructor; discriminate.
Defined.

(** ** What streaming leaves alone *)

Lemma chat_streamed_refl (el : nat) (l : list MessageElement) :
  chat_streamed el l l.
Proof. left. reflexivity. Qed.

Lemma chat_streamed_trans (el : nat) (l1 l2 l3 : list MessageElement) :
  chat_streamed el l1 l2 -> chat_streamed el l2 l3 -> chat_streamed el l1 l3.
Proof.
  intros [->|[t1 ->]] [->|[t2 ->]].
  - left. reflexivity.
  - right. eauto.
  - right. eauto.
  - right. exists t2. rewrite list_alter_alter_eq.
    apply list_alter_ext; [|reflexivity]. intros x _. reflexivity.
Qed.

Lemma chat_streamed_classes (el : nat) (l l' : list MessageElement) :
  chat_streamed el l l' -> List.map className l' = List.map className l.
Proof.
  intros [->|[t ->]]; [reflexivity|].
  revert el. induction l as [|x l IH]; intros el; [reflexivity|].
  destruct el as [|el]; simpl; [reflexivity|].
  f_equal. apply IH.
Qed.

Lemma chat_streamed_others (el i : nat) (l l' : list MessageElement) :
  chat_streamed el l l' -> i <> el -> l' !! i = l !! i.
Proof.
  intros [->|[t ->]] Hi; [reflexivity|].
  apply list_lookup_alter_ne. congruence.
Qed.

Lemma stream_step_refl (el : nat) (p : Page) : stream_step el p p.
Proof. unfold stream_step. repeat split; auto using chat_streamed_refl. Qed.

Lemma stream_step_trans (el : nat) (p q r : Page) :
  stream_step el p q -> stream_step el q r -> stream_step el p r.
Proof.
  unfold stream_step.
  intros (H1 & H2 & H3 & H4 & H5 & H6 & H7 & H8 & H9)
         (K1 & K2 & K3 & K4 & K5 & K6 & K7 & K8 & K9).
  repeat split; try congruence.
  - eapply chat_streamed_trans; eassumption.
  - etransitivity; eassumption.
Qed.

Lemma stream_step_flush (el : nat) (outer : jsstring) (p : Page) :
  stream_step el p (flushAssistantText el outer p).
Proof.
  unfold stream_step, flushAssistantText. simpl. repeat split; try reflexivity.
  right. exists outer. reflexivity.
Qed.

Lemma stream_step_log (el : nat) (e : LogEntry) (p : Page) :
  stream_step el p (console_error e p).
Proof.
  unfold stream_step, console_error. simpl.
  repeat split; try reflexivity; [apply chat_streamed_refl|].
  apply prefix_app_r. reflexivity.
Qed.

Lemma stream_step_chunk (engine : Engine) (el : nat) (data rt outer : jsstring)
  (p : Page) :
  stream_step el p
    (snd (processSseDataChunk engine data rt (flushAssistantText el outer) p)).
Proof.
  destruct (chunk_cases engine data rt (flushAssistantText el outer) p)
    as [H|[H|[e H]]]; rewrite H; simpl.
  - apply stream_step_refl.
  - apply stream_step_flush.
  - apply stream_step_log.
Qed.

Lemma stream_step_batch (engine : Engine) (el : nat) (batch : list jsstring)
  (rt : jsstring) (p : Page) :
  stream_step el p (snd (process_batch engine el batch rt p)).
Proof.
  revert rt p. induction batch as [|data rest IH]; intros rt p; simpl.
  - apply stream_step_refl.
  - destruct (jsstring_eqb data DONE); [apply stream_step_refl|].
    pose proof (stream_step_chunk engine el data rt rt p) as Hs.
    destruct (processSseDataChunk _ _ _ _ _) as [rt' p']. simpl in Hs.
    eapply stream_step_trans; [exact Hs | apply IH].
Qed.

Lemma stream_step_read_loop (engine : Engine) (el : nat)
  (chunks : list jsstring) (ending : StreamEnd) (b rt : jsstring) (p : Page) :
  stream_step el p (outcome_page (read_loop engine el chunks ending b rt p)).
Proof.
  revert b rt p. induction chunks as [|v chunks IH]; intros b rt p; simpl.
  - destruct ending as [|e]; simpl; [|apply stream_step_refl].
    pose proof (stream_step_batch engine el
                  (events (consumeSseEvents (b ++ terminator))) rt p) as Hs.
    destruct (process_batch _ _ _ _ _). exact Hs.
  - destruct (consumeSseEvents (b ++ v)) as [batch b'].
    pose proof (stream_step_batch engine el batch rt p) as Hs.
    destruct (process_batch engine el batch rt p) as [rt' p']. simpl in Hs.
    eapply stream_step_trans; [exact Hs | apply IH].
Qed.

Lemma stream_step_streamed_into (el : nat) (p q : Page) :
  stream_step el p q -> streamed_into el p q.
Proof.
  unfold stream_step, streamed_into.
  intros (H1 & H2 & H3 & H4 & H5 & H6 & H7 & H8 & H9).
  repeat split; try assumption.
  - apply (chat_streamed_classes el), H8.
  - intros i Hi. apply (chat_streamed_others el); assumption.
Qed.

(** X12. Streaming touches one text and the log.  Whatever the reads bring
    and however the stream ends, the read loop leaves history, busy flag,
    input, controls, indicator and requests as they are, keeps the number
    and the classes of the message elements and every element but the one
    it flushes into, and only adds to the log. *)
Theorem streaming_frame (engine : Engine) (el : nat) (chunks : list jsstring)
  (ending : StreamEnd) (b rt : jsstring) (p : Page) :
  streamed_into el p
    (outcome_page (read_loop engine el chunks ending b rt p)).
Proof. apply stream_step_streamed_into, stream_step_read_loop. Qed.

(** ** The exchange, from the answer of the network *)

Lemma read_loop_fails (engine : Engine) (el : nat) (chunks : list jsstring)
  (e : ErrorObject) (b rt : jsstring) (p : Page) :
  exists q, read_loop engine el chunks (StreamFails e) b rt p = Failed q e.
Proof.
  revert b rt p. induction chunks as [|v chunks IH]; intros b rt p; simpl.
  - eauto.
  - destruct (consumeSseEvents (b ++ v)) as [batch b'].
    destruct (process_batch engine el batch rt p) as [rt' p']. apply IH.
Qed.

Lemma read_loop_completes (engine : Engine) (el : nat) (chunks : list jsstring)
  (b rt : jsstring) (p : Page) :
  exists text q,
    read_loop engine el chunks StreamDone b rt p = Completed (text, q).
Proof.
  rewrite read_loop_batches. destruct (ingest_batches _ _ _ _ _) as [t q].
  eauto.
Qed.

Lemma exchange_outcome (engine : Engine) (net : FetchOutcome) (p : Page) :
  match transport_error net with
  | Some e =>
      exists q,
        exchange engine net p = Failed q e /\
        stream_step (length (chatMessages p)) (requested p) q
  | None =>
      exists text q,
        exchange engine net p =
          Completed (set_chatHistory (chatHistory q ++ [assistant_entry text]) q)
        /\ stream_step (length (chatMessages p)) (requested p) q
        /\ read_loop engine (length (chatMessages p)) (body_chunks net)
             StreamDone [] [] (requested p) = Completed (text, q)
  end.
Proof.
  unfold exchange, transport_error, body_chunks.
  change (createAssistantMessageElement p)
    with (length (chatMessages p), snd (createAssistantMessageElement p)).
  cbv beta iota. fold (requested p).
  destruct net as [e|r].
  - exists (requested p). split; [reflexivity | apply stream_step_refl].
  - destruct (ok r); cbn [negb].
    + destruct (body r) as [[chunks fin]|]; cbn [reads ending].
      * pose proof (stream_step_read_loop engine (length (chatMessages p))
                      chunks fin [] [] (requested p)) as Hs.
        destruct fin as [|e].
        -- destruct (read_loop_completes engine (length (chatMessages p))
                       chunks [] [] (requested p)) as [text [q Hq]].
           rewrite Hq in Hs |- *. exists text, q.
           split; [reflexivity | split; [exact Hs | reflexivity]].
        -- destruct (read_loop_fails engine (length (chatMessages p))
                       chunks e [] [] (requested p)) as [q Hq].
           rewrite Hq in Hs |- *. exists q.
           split; [reflexivity | exact Hs].
      * exists (requested p). split; [reflexivity | apply stream_step_refl].
    + exists (requested p). split; [reflexivity | apply stream_step_refl].
Qed.

(** ** An accepted call of [sendMessage] *)

Lemma sendMessage_accepted (engine : Engine) (net : FetchOutcome) (p : Page) :
  trim (userInput_value p) <> [] -> isProcessing p = false ->
  sendMessage engine net p =
  released
    match exchange engine net (entered p) with
    | Completed q => q
    | Failed q error => reported error q
    end.
Proof.
  intros Hm Hp. unfold sendMessage. apply jsstring_eqb_neq in Hm.
  rewrite Hm, Hp. reflexivity.
Qed.

Lemma chat_streamed_last (l l' : list MessageElement) :
  chat_streamed (length l) (l ++ [assistant_element []]) l' ->
  exists text, l' = l ++ [assistant_element text].
Proof.
  intros [->|[t ->]]; [eauto|]. exists t.
  rewrite <- (Nat.add_0_r (length l)), alter_app_r. reflexivity.
Qed.

Lemma entered_chat (p : Page) :
  chatMessages (entered p) =
  chatMessages p ++ [user_element (trim (userInput_value p))].
Proof. reflexivity. Qed.

Lemma requested_chat (p : Page) :
  chatMessages (requested p) = chatMessages p ++ [assistant_element []].
Proof. reflexivity. Qed.

(** What an accepted call has done when its request is out. *)
Lemma requested_entered (p : Page) :
  chatHistory (requested (entered p)) =
    chatHistory p ++ [user_entry (trim (userInput_value p))] /\
  userInput_value (requested (entered p)) = [] /\
  requests (requested (entered p)) =
    requests p ++ [chatHistory p ++ [user_entry (trim (userInput_value p))]] /\
  console (requested (entered p)) = console p /\
  chatMessages (requested (entered p)) =
    (chatMessages p ++ [user_element (trim (userInput_value p))])
    ++ [assistant_element []].
Proof. repeat split. Qed.

Lemma released_fields (p : Page) :
  isProcessing (released p) = false /\
  userInput_disabled (released p) = false /\
  sendButton_disabled (released p) = false /\
  typingIndicator_visible (released p) = false /\
  userInput_value (released p) = userInput_value p /\
  requests (released p) = requests p /\
  chatHistory (released p) = chatHistory p /\
  chatMessages (released p) = chatMessages p /\
  console (released p) = console p.
Proof. repeat split. Qed.

Lemma reported_fields (e : ErrorObject) (p : Page) :
  userInput_value (reported e p) = userInput_value p /\
  requests (reported e p) = requests p /\
  chatHistory (reported e p) = chatHistory p /\
  chatMessages (reported e p) =
    chatMessages p ++ [assistant_element (apology e)] /\
  console (reported e p) = console p ++ [LogError e].
Proof. repeat split. Qed.

(** The page an accepted call ends with, from the answer of the network:
    the page on which the request went out, streamed into, then the report
    or the answer, then the release. *)
Lemma sendMessage_outcome (engine : Engine) (net : FetchOutcome) (p : Page) :
  trim (userInput_value p) <> [] -> isProcessing p = false ->
  exists q,
    stream_step (length (chatMessages (entered p))) (requested (entered p)) q /\
    match transport_error net with
    | Some e => sendMessage engine net p = released (reported e q)
    | None =>
        exists text,
          sendMessage engine net p =
            released (set_chatHistory
                        (chatHistory q ++ [assistant_entry text]) q) /\
          read_loop engine (length (chatMessages (entered p)))
            (body_chunks net) StreamDone [] [] (requested (entered p)) =
          Completed (text, q)
    end.
Proof.
  intros Hm Hp. rewrite sendMessage_accepted by assumption.
  pose proof (exchange_outcome engine net (entered p)) as Ho.
  destruct (transport_error net) as [e|].
  - destruct Ho as (q & -> & Hs). exists q. split; [exact Hs | reflexivity].
  - destruct Ho as (text & q & -> & Hs & Hr). exists q.
    split; [exact Hs|]. exists text. split; [reflexivity | exact Hr].
Qed.

(** X13. An accepted call always ends idle, and has sent one request.
    Whatever the network answers, when [sendMessage] is through the busy
    flag is down, input and button are enabled, the indicator is hidden
    and the input is empty; one request went out, and its messages are the
    history followed by the trimmed message of the user. *)
Theorem accepted_call_ends_idle (engine : Engine) (net : FetchOutcome)
  (p : Page) :
  trim (userInput_value p) <> [] -> isProcessing p = false ->
  let q := sendMessage engine net p in
  isProcessing q = false /\
  userInput_disabled q = false /\
  sendButton_disabled q = false /\
  typingIndicator_visible q = false /\
  userInput_value q = [] /\
  requests q =
    requests p ++ [chatHistory p ++ [user_entry (trim (userInput_value p))]].
Proof.
  intros Hm Hp q. subst q.
  destruct (sendMessage_outcome engine net p Hm Hp) as (q & Hs & Ho).
  destruct Hs as (_ & _ & H3 & _ & _ & _ & H7 & _).
  destruct (requested_entered p) as (_ & Hv & Hq & _).
  rewrite Hv in H3. rewrite Hq in H7.
  destruct (transport_error net) as [e|].
  - rewrite Ho.
    destruct (released_fields (reported e q))
      as (R1 & R2 & R3 & R4 & R5 & R6 & _).
    destruct (reported_fields e q) as (F1 & F2 & _).
    rewrite R1, R2, R3, R4, R5, R6, F1, F2, H3, H7. repeat split.
  - destruct Ho as (text & -> & _).
    destruct (released_fields
                (set_chatHistory (chatHistory q ++ [assistant_entry text]) q))
      as (R1 & R2 & R3 & R4 & R5 & R6 & _).
    rewrite R1, R2, R3, R4, R5, R6.
    change (userInput_value (set_chatHistory _ q)) with (userInput_value q).
    change (requests (set_chatHistory _ q)) with (requests q).
    rewrite H3, H7. repeat split.
Qed.

Lemma accepted_call_ends_idle_witness :
  let p := set_userInput_value ([LF] ++ js " hi  ") empty_page in
  let q := sendMessage example_engine
             (FetchRejects {| error_name := js "TypeError";
                              error_message := js "Failed to fetch" |}) p in
  isProcessing q = false /\
  userInput_disabled q = false /\
  sendButton_disabled q = false /\
  typingIndicator_visible q = false /\
  userInput_value q = [] /\
  requests q =
    requests p ++ [chatHistory p ++ [user_entry (trim (userInput_value p))]].
Proof.
  intros p. apply accepted_call_ends_idle.
  - vm_compute. discriminate.
  - reflexivity.
Defined.

(** X14. An exchange that fails.  When [fetch] is rejected, the status is
    not ok, the body is missing or a read fails, the history gains the
    message of the user and nothing else (text received so far is not
    kept), the chat ends with the element of the user, the element of the
    assistant and the report of the error, and the error is the last entry
    of the log. *)
Theorem failed_exchange (engine : Engine) (net : FetchOutcome) (p : Page)
  (e : ErrorObject) :
  trim (userInput_value p) <> [] -> isProcessing p = false ->
  transport_error net = Some e ->
  let message := trim (userInput_value p) in
  let q := sendMessage engine net p in
  chatHistory q = chatHistory p ++ [user_entry message] /\
  (exists partial,
      chatMessages q =
      chatMessages p ++ [user_element message; assistant_element partial;
                         assistant_element (apology e)]) /\
  (exists logged, console q = console p ++ logged ++ [LogError e]).
Proof.
  intros Hm Hp He message q. subst q message.
  destruct (sendMessage_outcome engine net p Hm Hp) as (q & Hs & Ho).
  rewrite He in Ho. rewrite Ho.
  destruct Hs as (H1 & _ & _ & _ & _ & _ & _ & H8 & H9).
  destruct (requested_entered p) as (Hh & _ & _ & Hc & Hm').
  rewrite Hh in H1. rewrite Hc in H9. rewrite Hm', entered_chat in H8.
  destruct (released_fields (reported e q)) as (_ & _ & _ & _ & _ & _ & R7 & R8 & R9).
  destruct (reported_fields e q) as (_ & _ & F3 & F4 & F5).
  rewrite R7, R8, R9, F3, F4, F5.
  split; [exact H1|]. split.
  - apply chat_streamed_last in H8 as [partial ->].
    exists partial. rewrite <- !app_assoc. reflexivity.
  - destruct H9 as [logged ->]. exists logged. rewrite <- app_assoc.
    reflexivity.
Qed.

Lemma failed_exchange_witness :
  let p := set_userInput_value (js "hi") empty_page in
  let net :=
    FetchResolves {| ok := false; status := 503;
                     statusText := js "Service Unavailable";
                     body := None |} in
  let e :=
    new_Error
      (js "API request to /api/chat failed with status 503: Service Unavailable. Please try again or check your connection.") in
  let message := trim (userInput_value p) in
  let q := sendMessage example_engine net p in
  chatHistory q = chatHistory p ++ [user_entry message] /\
  (exists partial,
      chatMessages q =
      chatMessages p ++ [user_element message; assistant_element partial;
                         assistant_element (apology e)]) /\
  (exists logged, console q = console p ++ logged ++ [LogError e]).
Proof.
  intros p net e. apply failed_exchange.
  - vm_compute. discriminate.
  - reflexivity.
  - reflexivity.
Defined.

(** X15. An exchange that completes.  The history gains the message of
    the user and the answer, whose text is made of the deltas of the
    payloads before the first sentinel of each batch; the chat gains the
    element of the user and the element of the assistant, and no report;
    the log only grows. *)
Theorem completed_exchange (engine : Engine) (net : FetchOutcome) (p : Page) :
  trim (userInput_value p) <> [] -> isProcessing p = false ->
  transport_error net = None ->
  let message := trim (userInput_value p) in
  let q := sendMessage engine net p in
  chatHistory q =
    chatHistory p ++ [user_entry message;
                      assistant_entry (exchange_text engine (body_chunks net))] /\
  (exists displayed,
      chatMessages q =
      chatMessages p ++ [user_element message; assistant_element displayed]) /\
  console p `prefix_of` console q.
Proof.
  intros Hm Hp He message q. subst q message.
  destruct (sendMessage_outcome engine net p Hm Hp) as (q & Hs & Ho).
  rewrite He in Ho. destruct Ho as (text & -> & Hr).
  destruct Hs as (H1 & _ & _ & _ & _ & _ & _ & H8 & H9).
  destruct (requested_entered p) as (Hh & _ & _ & Hc & Hm').
  rewrite Hh in H1. rewrite Hc in H9. rewrite Hm', entered_chat in H8.
  assert (Ht : text = exchange_text engine (body_chunks net)).
  { rewrite read_loop_batches in Hr. injection Hr as Hr.
    apply (f_equal fst) in Hr. rewrite ingest_batches_text in Hr.
    symmetry. exact Hr. }
  destruct (released_fields
              (set_chatHistory (chatHistory q ++ [assistant_entry text]) q))
    as (_ & _ & _ & _ & _ & _ & R7 & R8 & R9).
  rewrite R7, R8, R9.
  change (chatHistory (set_chatHistory (chatHistory q ++ [assistant_entry text]) q))
    with (chatHistory q ++ [assistant_entry text]).
  change (chatMessages (set_chatHistory (chatHistory q ++ [assistant_entry text]) q))
    with (chatMessages q).
  change (console (set_chatHistory (chatHistory q ++ [assistant_entry text]) q))
    with (console q).
  split; [|split].
  - rewrite H1, Ht, <- app_assoc. reflexivity.
  - apply chat_streamed_last in H8 as [displayed ->].
    exists displayed. rewrite <- !app_assoc. reflexivity.
  - exact H9.
Qed.

Lemma completed_exchange_witness :
  let p := set_userInput_value (js "hi") empty_page in
  let net :=
    FetchResolves
      {| ok := true; status := 200; statusText := js "OK";
         body := Some {| reads := [jsq "data: {'respo";
                                   jsq "nse':'Hel'}" ++ [LF; LF]
                                   ++ jsq "data: {'response':'lo'}" ++ [LF; LF]
                                   ++ js "data: [DONE]" ++ [LF; LF]];
                         ending := StreamDone |} |} in
  let message := trim (userInput_value p) in
  let q := sendMessage example_engine net p in
  chatHistory q =
    chatHistory p ++ [user_entry message;
                      assistant_entry
                        (exchange_text example_engine (body_chunks net))] /\
  (exists displayed,
      chatMessages q =
      chatMessages p ++ [user_element message; assistant_element displayed]) /\
  console p `prefix_of` console q.
Proof.
  intros p net. apply completed_exchange.
  - vm_compute. discriminate.
  - reflexivity.
  - reflexivity.
Defined.

(** ** A framed stream, cut into reads *)

Lemma framed_app (records1 records2 : list (list jsstring)) :
  framed (records1 ++ records2) = framed records1 ++ framed records2.
Proof. unfold framed. rewrite List.map_app, concat_app. reflexivity. Qed.

(** X16. Round trip of a stream.  However a text of framed records is cut
    into reads, the payloads of all passes and of the flush are the
    payloads of the records, in order; and when the stream ends in a
    record that has no blank line behind it, the flush surfaces that
    record as the last payload. *)
Theorem stream_round_trip (records : list (list jsstring))
  (final : list jsstring) (chunks : list jsstring) :
  Forall (fun lines => lines <> [] /\ Forall plain_line lines) records ->
  final <> [] /\ Forall plain_line final ->
  (concat chunks = framed records ->
   concat (demux_batches chunks []) =
   List.map (fun lines => join lines [LF]) records) /\
  (concat chunks = framed records ++ data_record final ->
   concat (demux_batches chunks []) =
   List.map (fun lines => join lines [LF]) (records ++ [final])).
Proof.
  intros Hr Hf. split; intros Hc; rewrite demux_batches_concat, Hc; simpl.
  - rewrite consumeSseEvents_framed by exact Hr. simpl.
    apply app_nil_r.
  - replace ((framed records ++ data_record final) ++ terminator)
      with (framed (records ++ [final]) ++ []).
    + rewrite consumeSseEvents_framed.
      * simpl. apply app_nil_r.
      * apply Forall_app. split; [exact Hr|]. constructor; [exact Hf|constructor].
    + rewrite framed_app, app_nil_r, <- app_assoc. unfold framed at 2. simpl.
      rewrite app_nil_r. reflexivity.
Qed.

Lemma stream_round_trip_witness :
  let records := [[jsq "{'response':'Hel'}"]; [js "two"; js "lines"]] in
  let final := [jsq "{'response':'lo'}"] in
  let chunks :=
    [js "da"; jsq "ta: {'response':'Hel'}" ++ [LF];
     [LF] ++ js "data: two" ++ [LF] ++ js "data: lines" ++ [LF; LF]
     ++ js "data: {"; jsq "'response':'lo'}"] in
  (concat chunks = framed records ->
   concat (demux_batches chunks []) =
   List.map (fun lines => join lines [LF]) records) /\
  (concat chunks = framed records ++ data_record final ->
   concat (demux_batches chunks []) =
   List.map (fun lines => join lines [LF]) (records ++ [final])).
Proof.
  intros records final chunks. apply stream_round_trip.
  - repeat constructor; try discriminate.
  - repeat constructor; try discriminate.
Defined.

(** The second case of the witness is the one that applies. *)
Example stream_round_trip_applies :
  concat [js "da"; jsq "ta: {'response':'Hel'}" ++ [LF];
          [LF] ++ js "data: two" ++ [LF] ++ js "data: lines" ++ [LF; LF]
          ++ js "data: {"; jsq "'response':'lo'}"] =
  framed [[jsq "{'response':'Hel'}"]; [js "two"; js "lines"]]
  ++ data_record [jsq "{'response':'lo'}"].
Proof. reflexivity. Qed.

(** ** When a call is rejected *)

Lemma trimStart_nil_iff (s : jsstring) :
  trimStart s = [] <-> Forall (fun c => isWhiteSpace c = true) s.
Proof.
  induction s as [|c s IH]; simpl.
  - split; [constructor | reflexivity].
  - destruct (isWhiteSpace c) eqn:E.
    + rewrite IH. split; [constructor; assumption|].
      intros H. inversion H; assumption.
    + split; [discriminate|]. intros H. inversion H; congruence.
Qed.

Lemma trimStart_decompose (s : jsstring) :
  exists ws, s = ws ++ trimStart s /\ Forall (fun c => isWhiteSpace c = true) ws.
Proof.
  induction s as [|c s IH]; simpl.
  - exists []. split; [reflexivity | constructor].
  - destruct (isWhiteSpace c) eqn:E.
    + destruct IH as [ws [H1 H2]]. exists (c :: ws). split.
      * simpl. rewrite <- H1. reflexivity.
      * constructor; assumption.
    + exists []. split; [reflexivity | constructor].
Qed.

(** The trimmed text is empty exactly when the text is white space. *)
Lemma trim_nil_iff (s : jsstring) :
  trim s = [] <-> Forall (fun c => isWhiteSpace c = true) s.
Proof.
  unfold trim, trimEnd. split.
  - intros H. apply (f_equal (@rev N)) in H. rewrite rev_involutive in H.
    simpl in H. apply trimStart_nil_iff in H.
    apply Forall_rev in H. rewrite rev_involutive in H.
    destruct (trimStart_decompose s) as [ws [Hs Hws]].
    rewrite Hs. apply Forall_app. split; assumption.
  - intros H.
    assert (Ht : trimStart s = []) by (apply trimStart_nil_iff, H).
    rewrite Ht. reflexivity.
Qed.

Lemma accepted_call_requests (engine : Engine) (net : FetchOutcome) (p : Page) :
  trim (userInput_value p) <> [] -> isProcessing p = false ->
  requests (sendMessage engine net p) =
  requests p ++ [chatHistory p ++ [user_entry (trim (userInput_value p))]].
Proof.
  intros Hm Hp.
  destruct (sendMessage_outcome engine net p Hm Hp) as (q & Hs & Ho).
  destruct Hs as (_ & _ & _ & _ & _ & _ & H7 & _).
  destruct (requested_entered p) as (_ & _ & Hq & _). rewrite Hq in H7.
  destruct (transport_error net) as [e|].
  - rewrite Ho. exact H7.
  - destruct Ho as (text & -> & _). exact H7.
Qed.

(** X17. A call is rejected exactly when an exchange is in flight or the
    input holds nothing but white space: in these cases, and in no other,
    [sendMessage] leaves the page as it is. *)
Theorem rejected_iff_busy_or_blank (engine : Engine) (net : FetchOutcome)
  (p : Page) :
  sendMessage engine net p = p <->
  isProcessing p = true \/
  Forall (fun c => isWhiteSpace c = true) (userInput_value p).
Proof.
  split.
  - intros H. destruct (isProcessing p) eqn:Hp; [left; reflexivity|].
    right. apply trim_nil_iff.
    destruct (trim (userInput_value p)) as [|c m] eqn:Hm; [reflexivity|].
    exfalso.
    assert (Hne : trim (userInput_value p) <> []) by (rewrite Hm; discriminate).
    pose proof (accepted_call_requests engine net p Hne Hp) as Hr.
    rewrite H in Hr. apply (f_equal (@length _)) in Hr.
    rewrite length_app in Hr. simpl in Hr. lia.
  - intros [H|H]; unfold sendMessage.
    + rewrite H, orb_true_r. reflexivity.
    + apply trim_nil_iff in H. rewrite H. reflexivity.
Qed.

(** ** The two formats *)

(** X18. First match wins: when the payload is an object whose
    [response] is a non-empty string, the delta is that string, whatever
    stands at [choices]. *)
Theorem response_field_wins (engine : Engine) (data : jsstring)
  (members : list (jsstring * JsValue)) (c : N) (s : jsstring) :
  JSON_parse data = Normal (JObject members) ->
  lookup_member members (js "response") = Some (JString (c :: s)) ->
  delta engine data = c :: s.
Proof. apply delta_response. Qed.

Lemma response_field_wins_witness :
  delta example_engine
    (jsq "{'choices':[{'delta':{'content':'other'}}],'response':'Hel'}") =
  js "Hel".
Proof.
  eapply (response_field_wins example_engine); reflexivity.
Defined.

(** X19. The second format: when the payload is an object without
    [response] whose [choices] is an array that starts with an object
    whose [delta] is an object whose [content] is a non-empty string, the
    delta is that string. *)
Theorem choices_content_is_delta (engine : Engine) (data : jsstring)
  (members first dm : list (jsstring * JsValue)) (rest : list JsValue)
  (c : N) (s : jsstring) :
  JSON_parse data = Normal (JObject members) ->
  lookup_member members (js "response") = None ->
  lookup_member members (js "choices") = Some (JArray (JObject first :: rest)) ->
  lookup_member first (js "delta") = Some (JObject dm) ->
  lookup_member dm (js "content") = Some (JString (c :: s)) ->
  delta engine data = c :: s.
Proof. apply delta_choices_string. Qed.

Lemma choices_content_is_delta_witness :
  delta example_engine
    (jsq "{'id':1,'choices':[{'index':0,'delta':{'content':'lo'}},{}]}") =
  js "lo".
Proof.
  eapply (choices_content_is_delta example_engine); reflexivity.
Defined.

(** X20. Where the code keeps to the policy of the specification: on every
    payload whose value at [choices[0].delta.content], when it is truthy,
    is a string, the delta is the one of the policy. *)
Theorem code_follows_policy_on_strings (engine : Engine) (data : jsstring) :
  (forall jsonData x,
      JSON_parse data = Normal jsonData ->
      choices_0_delta_content_optional jsonData = Normal x ->
      ToBoolean engine x = true -> exists s, x = JString s) ->
  delta engine data = policy_delta data.
Proof. apply delta_follows_policy. Qed.

Lemma code_follows_policy_on_strings_witness :
  delta example_engine
    (jsq "{'response':'','choices':[{'delta':{'content':'lo'}}]}") =
  policy_delta (jsq "{'response':'','choices':[{'delta':{'content':'lo'}}]}").
Proof.
  apply code_follows_policy_on_strings.
  intros jsonData x Hp Hc _. vm_compute in Hp. injection Hp as <-.
  vm_compute in Hc. injection Hc as <-. eauto.
Defined.

(** ** The payload of a record *)

Lemma collect_filter_map (lines acc : list jsstring) :
  fold_left push_data_line lines acc =
  acc ++ List.map field_value (List.filter is_data_line lines).
Proof.
  revert acc. induction lines as [|l lines IH]; intros acc; simpl.
  - rewrite app_nil_r. reflexivity.
  - rewrite IH. unfold push_data_line, is_data_line.
    destruct (startsWith l data_prefix); [|reflexivity].
    simpl. rewrite <- app_assoc. reflexivity.
Qed.

(** X21. The payload of a record.  Of the lines of a complete record the
    loop keeps those that begin with [data:], in their order, takes what
    follows the prefix without the white space in front, and joins these
    values with line feeds into one payload; comments and other fields are
    skipped, and a record without [data:] line gives no payload. *)
Theorem record_payload (record rest : jsstring) :
  no_CR record ->
  indexOf record terminator = None ->
  endsWith record [LF] = false ->
  consumeSseEvents (record ++ terminator ++ rest) =
  {| events :=
       match data_lines_of record with
       | [] => []
       | _ :: _ => [join (data_lines_of record) [LF]]
       end ++ events (consumeSseEvents rest);
     buffer := buffer (consumeSseEvents rest) |}.
Proof.
  intros Hcr Hnone Hend. rewrite consumeSseEvents_record by assumption.
  unfold emitted, collect_data_lines, data_lines_of.
  rewrite collect_filter_map. simpl.
  destruct (List.map field_value _); reflexivity.
Qed.

Lemma record_payload_witness :
  let record :=
    js ": comment" ++ [LF] ++ js "data:   first" ++ [LF] ++ js "event: x"
    ++ [LF] ++ js "data:second" ++ [LF] ++ js " data: not a field" in
  consumeSseEvents (record ++ terminator ++ js "data: par") =
  {| events :=
       match data_lines_of record with
       | [] => []
       | _ :: _ => [join (data_lines_of record) [LF]]
       end ++ events (consumeSseEvents (js "data: par"));
     buffer := buffer (consumeSseEvents (js "data: par")) |}.
Proof.
  intros record. apply record_payload.
  - unfold no_CR. repeat constructor; discriminate.
  - vm_compute. reflexivity.
  - vm_compute. reflexivity.
Defined.

(** The payload of the record of the witness. *)
Example record_payload_value :
  data_lines_of
    (js ": comment" ++ [LF] ++ js "data:   first" ++ [LF] ++ js "event: x"
     ++ [LF] ++ js "data:second" ++ [LF] ++ js " data: not a field") =
  [js "first"; js "second"].
Proof. reflexivity. Qed.

(** ** The page never runs ahead of the text *)

Lemma shown_console_error (el : nat) (e : LogEntry) (p : Page) :
  shown el (console_error e p) = shown el p.
Proof. reflexivity. Qed.

Lemma shown_lt (el : nat) (p : Page) (d : jsstring) :
  shown el p = Some d -> (el < length (chatMessages p))%nat.
Proof.
  unfold shown. intros H. destruct (chatMessages p !! el) eqn:E; [|discriminate].
  apply lookup_lt_Some in E. exact E.
Qed.

Lemma chunk_shown_prefix (engine : Engine) (el : nat) (data rt d : jsstring)
  (p : Page) :
  shown el p = Some d -> d `prefix_of` rt ->
  exists d',
    shown el (snd (processSseDataChunk engine data rt
                     (flushAssistantText el rt) p)) = Some d' /\
    d' `prefix_of`
      fst (processSseDataChunk engine data rt (flushAssistantText el rt) p).
Proof.
  intros Hd Hp.
  destruct (chunk_cases engine data rt (flushAssistantText el rt) p)
    as [H|[H|[e H]]]; rewrite H; simpl.
  - eauto.
  - exists rt. split; [apply shown_flush, (shown_lt _ _ _ Hd)|].
    apply prefix_app_r. reflexivity.
  - exists d. rewrite shown_console_error. auto.
Qed.

Lemma batch_shown_prefix (engine : Engine) (el : nat) (batch : list jsstring)
  (rt d : jsstring) (p : Page) :
  shown el p = Some d -> d `prefix_of` rt ->
  exists d',
    shown el (snd (process_batch engine el batch rt p)) = Some d' /\
    d' `prefix_of` fst (process_batch engine el batch rt p).
Proof.
  revert rt d p. induction batch as [|data rest IH]; intros rt d p Hd Hp; simpl.
  - eauto.
  - destruct (jsstring_eqb data DONE); [simpl; eauto|].
    destruct (chunk_shown_prefix engine el data rt d p Hd Hp) as [d1 [H1 H2]].
    destruct (processSseDataChunk _ _ _ _ _) as [rt' p']. simpl in *.
    apply (IH rt' d1 p'); assumption.
Qed.

(** X22. The page never runs ahead of the text.  When the element shows a
    front part of the text as the reads begin, then at the end of the
    stream it shows a front part of the text the exchange ends with: what
    is displayed is never more than, and never different from, the
    beginning of the answer. *)
Theorem display_is_a_prefix (engine : Engine) (el : nat)
  (chunks : list jsstring) (b rt d : jsstring) (p : Page) :
  shown el p = Some d -> d `prefix_of` rt ->
  exists text q d',
    read_loop engine el chunks StreamDone b rt p = Completed (text, q) /\
    shown el q = Some d' /\ d' `prefix_of` text.
Proof.
  revert b rt d p. induction chunks as [|v chunks IH]; intros b rt d p Hd Hp;
    simpl.
  - destruct (batch_shown_prefix engine el
                (events (consumeSseEvents (b ++ terminator))) rt d p Hd Hp)
      as [d' [H1 H2]].
    destruct (process_batch _ _ _ _ _) as [text q]. simpl in *.
    exists text, q, d'. auto.
  - destruct (consumeSseEvents (b ++ v)) as [batch b'].
    destruct (batch_shown_prefix engine el batch rt d p Hd Hp)
      as [d1 [H1 H2]].
    destruct (process_batch engine el batch rt p) as [rt' p']. simpl in *.
    apply (IH b' rt' d1 p'); assumption.
Qed.

Lemma display_is_a_prefix_witness :
  exists text q d',
    read_loop example_engine 0
      [jsq "data: {'response':'Hel'}" ++ [LF; LF] ++ js "data: {no";
       js "t json" ++ [LF; LF]; jsq "data: {'response':'lo'}"]
      StreamDone [] [] (snd (createAssistantMessageElement empty_page)) =
    Completed (text, q) /\
    shown 0 q = Some d' /\ d' `prefix_of` text.
Proof.
  apply (display_is_a_prefix example_engine 0 _ [] [] []).
  - reflexivity.
  - reflexivity.
Defined.

(** ** One exchange after the other *)

Lemma accepted_call_history (engine : Engine) (net : FetchOutcome) (p : Page) :
  trim (userInput_value p) <> [] -> isProcessing p = false ->
  chatHistory (sendMessage engine net p) =
  chatHistory p ++ [user_entry (trim (userInput_value p))]
  ++ answer_entries engine net.
Proof.
  intros Hm Hp. unfold answer_entries.
  destruct (sendMessage_outcome engine net p Hm Hp) as (q & Hs & Ho).
  destruct Hs as (H1 & _).
  destruct (requested_entered p) as (Hh & _). rewrite Hh in H1.
  destruct (transport_error net) as [e|].
  - rewrite Ho. change (chatHistory (released (reported e q))) with (chatHistory q).
    rewrite H1, app_nil_r. reflexivity.
  - destruct Ho as (text & -> & Hr).
    change (chatHistory (released (set_chatHistory
                                     (chatHistory q ++ [assistant_entry text]) q)))
      with (chatHistory q ++ [assistant_entry text]).
    rewrite read_loop_batches in Hr. injection Hr as Hr.
    apply (f_equal fst) in Hr. rewrite ingest_batches_text in Hr.
    simpl in Hr. rewrite <- Hr, H1, <- app_assoc. reflexivity.
Qed.

Lemma accepted_call_idle (engine : Engine) (net : FetchOutcome) (p : Page) :
  trim (userInput_value p) <> [] -> isProcessing p = false ->
  isProcessing (sendMessage engine net p) = false.
Proof.
  intros Hm Hp. rewrite sendMessage_accepted by assumption. reflexivity.
Qed.

(** X23. The context of a conversation.  After an accepted call, the user
    types again and sends: the call is accepted, and its request carries
    the history so far, that is the earlier history, the first message,
    the answer to it when the first exchange completed (nothing when it
    failed), and the new message. *)
Theorem conversation_context (engine : Engine) (net1 net2 : FetchOutcome)
  (p : Page) (input2 : jsstring) :
  trim (userInput_value p) <> [] -> isProcessing p = false ->
  trim input2 <> [] ->
  let first := chatHistory p ++ [user_entry (trim (userInput_value p))] in
  let q := sendMessage engine net1 p in
  let r := sendMessage engine net2 (set_userInput_value input2 q) in
  requests r =
  requests p ++
    [first; first ++ answer_entries engine net1 ++ [user_entry (trim input2)]].
Proof.
  intros Hm Hp Hm2 first q r. subst first q r.
  set (q := sendMessage engine net1 p).
  assert (Hidle : isProcessing (set_userInput_value input2 q) = false)
    by (apply (accepted_call_idle engine net1 p); assumption).
  rewrite accepted_call_requests by assumption.
  change (requests (set_userInput_value input2 q)) with (requests q).
  change (chatHistory (set_userInput_value input2 q)) with (chatHistory q).
  change (userInput_value (set_userInput_value input2 q)) with input2.
  unfold q. rewrite accepted_call_requests, accepted_call_history by assumption.
  rewrite <- !app_assoc. reflexivity.
Qed.

Lemma conversation_context_witness :
  let p := set_userInput_value (js "hi") empty_page in
  let net1 :=
    FetchResolves
      {| ok := true; status := 200; statusText := js "OK";
         body := Some {| reads := [jsq "data: {'response':'Hello'}"];
                         ending := StreamDone |} |} in
  let net2 :=
    FetchRejects {| error_name := js "TypeError";
                    error_message := js "Failed to fetch" |} in
  let first := chatHistory p ++ [user_entry (trim (userInput_value p))] in
  let q := sendMessage example_engine net1 p in
  let r := sendMessage example_engine net2
             (set_userInput_value (js " and then? ") q) in
  requests r =
  requests p ++
    [first;
     first ++ answer_entries example_engine net1
     ++ [user_entry (trim (js " and then? "))]].
Proof.
  intros p net1 net2.
  apply (conversation_context example_engine net1 net2 p (js " and then? ")).
  - vm_compute. discriminate.
  - reflexivity.
  - vm_compute. discriminate.
Defined.

(** ** The accumulator against the policy of the specification *)

(** On payloads whose value at [choices[0].delta.content], when it is
    truthy, is a string, the text after the batch is the text before
    followed by the deltas of the policy, in order. *)
Lemma accumulator_follows_policy_on_strings (engine : Engine) (el : nat)
  (payloads : list jsstring) (rt : jsstring) (p : Page) :
  Forall (fun data =>
            data <> DONE /\
            forall jsonData x,
              JSON_parse data = Normal jsonData ->
              choices_0_delta_content_optional jsonData = Normal x ->
              ToBoolean engine x = true -> exists s, x = JString s)
    payloads ->
  fst (process_batch engine el payloads rt p) =
  rt ++ concat (List.map policy_delta payloads).
Proof.
  intros H. revert rt p. induction H as [|data rest [Hd Hs] _ IH]; intros rt p.
  - simpl. rewrite app_nil_r. reflexivity.
  - rewrite process_batch_cons by exact Hd.
    rewrite IH, processSseDataChunk_delta, (delta_follows_policy engine data Hs).
    simpl. rewrite app_assoc. reflexivity.
Qed.

(** C2, at the input on which the accumulator leaves the claim.  The one
    payload of the batch is not the sentinel and holds [true] at
    [choices[0].delta.content]; its delta after the policy is empty, so
    the claim has the text unchanged.  The code appends [true]: the text
    is not the concatenation of the deltas.  (The text still extends the
    one before.) *)
Theorem accumulator_appends_non_string (engine : Engine) (el : nat)
  (rt : jsstring) (p : Page) :
  let payloads := [jsq "{'choices':[{'delta':{'content':true}}]}"] in
  Forall (fun data => data <> DONE) payloads /\
  concat (List.map policy_delta payloads) = [] /\
  fst (process_batch engine el payloads rt p) = rt ++ js "true" /\
  fst (process_batch engine el payloads rt p) <>
    rt ++ concat (List.map policy_delta payloads).
Proof.
  intros payloads.
  assert (Hcode : fst (process_batch engine el payloads rt p) = rt ++ js "true")
    by reflexivity.
  split; [|split; [|split]].
  - repeat constructor. discriminate.
  - reflexivity.
  - exact Hcode.
  - rewrite Hcode. intros H. apply app_inv_head in H. discriminate.
Qed.
